(** * thanos-receive-controller: a shallow embedding of [main.go]

  The controller reads a hashring file, probes every endpoint for
  readiness, keeps the ready ones (sorted) and writes the result next to
  the source file unless the file on disk already has the same SHA-256
  digest.  This development embeds the Go functions of [main.go] as Rocq
  functions over an explicit world (file system, logs, HTTP requests) and
  proves properties of them.

  Layout: the Go standard-library functions the program calls
  ([strings], [strconv], [fmt], [sort], [encoding/json]) come first, then
  the world and the effect monad, then the functions of [main.go] in
  source order, then the lemmas and theorems. *)

From Stdlib Require Import ZArith String Ascii Lia.
From stdpp Require Import base list gmap strings sorting pretty.

Local Open Scope string_scope.
Local Open Scope Z_scope.

(** ** Go slices

  A Go slice is [nil] or a backing sequence; [len], [range] and [append]
  treat [nil] as empty, [encoding/json] does not ([null] against [[]]). *)

Inductive slice (A : Type) : Type :=
| nil_slice
| mk_slice (l : list A).
Arguments nil_slice {A}.
Arguments mk_slice {A} l.

Definition elems {A} (s : slice A) : list A :=
  match s with
  | nil_slice => []
  | mk_slice l => l
  end.

Definition len {A} (s : slice A) : nat := length (elems s).

(** [append(s, x)]: the result is never [nil]. *)
Definition append {A} (s : slice A) (x : A) : slice A :=
  mk_slice (elems s ++ [x]).

(** A slice built by [var s []T] followed by one [append] per element of
  [l]: [nil] when [l] is empty. *)
Definition appended {A} (l : list A) : slice A :=
  foldl append nil_slice l.

(** ** package strings *)

Module strings.

Fixpoint take (n : nat) (s : string) : string :=
  match n, s with
  | S n', String c s' => String c (take n' s')
  | _, _ => EmptyString
  end.

Fixpoint drop (n : nat) (s : string) : string :=
  match n, s with
  | S n', String _ s' => drop n' s'
  | _, _ => s
  end.

(** [HasPrefix(s, prefix)]: [len(s) >= len(prefix) && s[:len(prefix)] == prefix]. *)
Definition HasPrefix (s prefix : string) : bool :=
  (String.length prefix <=? String.length s)%nat
  && String.eqb (take (String.length prefix) s) prefix.

(** [HasSuffix(s, suffix)]:
    [len(s) >= len(suffix) && s[len(s)-len(suffix):] == suffix]. *)
Definition HasSuffix (s suffix : string) : bool :=
  (String.length suffix <=? String.length s)%nat
  && String.eqb (drop (String.length s - String.length suffix) s) suffix.

(** [Index(s, substr)]: the byte offset of the first occurrence, [None]
    for Go's [-1]. *)
Fixpoint Index (s substr : string) : option nat :=
  if HasPrefix s substr then Some 0%nat
  else match s with
       | EmptyString => None
       | String _ s' => S <$> Index s' substr
       end.

(** [genSplit] with [sepSave = 0] and [n < 0], for a non-empty
    separator: cut at every occurrence found by [Index], left to right.
    The loop runs at most [len(s)] times, which bounds the recursion. *)
Fixpoint genSplit (fuel : nat) (s sep : string) : list string :=
  match Index s sep with
  | None => [s]
  | Some m =>
      match fuel with
      | O => [s]
      | S fuel' =>
          take m s :: genSplit fuel' (drop (m + String.length sep) s) sep
      end
  end.

(** [Split(s, sep)].  With an empty separator Go explodes [s] into its
    UTF-8 sequences; the program only splits on [":"] and [".json"], and
    the empty separator is mapped byte by byte here. *)
Definition Split (s sep : string) : list string :=
  match sep with
  | EmptyString => (fun c => String c EmptyString) <$> list_ascii_of_string s
  | _ => genSplit (String.length s) s sep
  end.

(** [strings.Join]. *)
Fixpoint Join (l : list string) (sep : string) : string :=
  match l with
  | [] => EmptyString
  | [x] => x
  | x :: l' => x ++ sep ++ Join l' sep
  end.

End strings.

(** ** package strconv *)

Module strconv.

Inductive NumError : Type := ErrSyntax | ErrRange.

Definition isDigit (c : ascii) : bool :=
  (48 <=? nat_of_ascii c)%nat && (nat_of_ascii c <=? 57)%nat.

Definition digit (c : ascii) : Z := Z.of_nat (nat_of_ascii c) - 48.

Definition maxUint64 : Z := 2 ^ 64 - 1.

(** The loop of [ParseUint(s, 10, 64)] in [strconv/atoi.go]: bytes are
    consumed left to right; an invalid byte yields [(0, ErrSyntax)], and a
    digit that arrives when the accumulator is already at
    [cutoff = maxUint64/10 + 1] (the test [n >= cutoff] inside the loop), or
    that makes [n*10 + d] wrap, yields [(maxUint64, ErrRange)] at once,
    without looking at the bytes after it. *)
Fixpoint parseUintLoop (n : Z) (s : string) : Z * option NumError :=
  match s with
  | EmptyString => (n, None)
  | String c s' =>
      if negb (isDigit c) then (0, Some ErrSyntax)
      else if maxUint64 / 10 + 1 <=? n then (maxUint64, Some ErrRange)
      else if maxUint64 <? n * 10 + digit c then (maxUint64, Some ErrRange)
      else parseUintLoop (n * 10 + digit c) s'
  end.

Definition ParseUint (s : string) : Z * option NumError :=
  match s with
  | EmptyString => (0, Some ErrSyntax)
  | _ => parseUintLoop 0 s
  end.

(** [ParseInt(s, 10, 0)] on a 64-bit platform. *)
Definition ParseInt (s : string) : Z * option NumError :=
  match s with
  | EmptyString => (0, Some ErrSyntax)
  | String c s' =>
      let neg := Ascii.eqb c "-" in
      let s1 := if Ascii.eqb c "+" || neg then s' else s in
      match ParseUint s1 with
      | (_, Some ErrSyntax) => (0, Some ErrSyntax)
      | (un, _) =>
          if negb neg && (2 ^ 63 <=? un) then (2 ^ 63 - 1, Some ErrRange)
          else if neg && (2 ^ 63 <? un) then (- 2 ^ 63, Some ErrRange)
          else (if neg then - un else un, None)
      end
  end.

(** The fast path of [Atoi]: at most 18 bytes, so the value fits. *)
Fixpoint atoiLoop (n : Z) (s : string) : option Z :=
  match s with
  | EmptyString => Some n
  | String ch s' =>
      if negb (isDigit ch) then None else atoiLoop (n * 10 + digit ch) s'
  end.

Definition atoiFast (s0 : string) : Z * option NumError :=
  match s0 with
  | EmptyString => (0, Some ErrSyntax)
  | String c s' =>
      let signed := Ascii.eqb c "-" || Ascii.eqb c "+" in
      let s := if signed then s' else s0 in
      if signed && (String.length s <? 1)%nat then (0, Some ErrSyntax)
      else match atoiLoop 0 s with
           | None => (0, Some ErrSyntax)
           | Some n => (if Ascii.eqb c "-" then - n else n, None)
           end
  end.

(** [Atoi(s)] with [intSize = 64]. *)
Definition Atoi (s : string) : Z * option NumError :=
  let sLen := String.length s in
  if (0 <? sLen)%nat && (sLen <? 19)%nat then atoiFast s
  else ParseInt s.

End strconv.

(** ** Go's [int] and package fmt *)

(** [int] is a 64-bit two's complement integer; [+] wraps around. *)
Definition wrap64 (z : Z) : Z := (z + 2 ^ 63) mod 2 ^ 64 - 2 ^ 63.

Definition int_add (a b : Z) : Z := wrap64 (a + b).

(** The verb [%d] of [fmt.Sprintf] on an [int]: signed decimal. *)
Definition fmt_d (z : Z) : string := pretty z.

(** ** package sort *)

(** [sort.Strings] sorts in increasing order of Go's [<] on strings, the
  bytewise lexicographic order, which is [String.le]. *)
Definition sort_Strings (l : list string) : list string :=
  merge_sort String.le l.


(** ** The data model of [main.go] *)

(** [type HashringConfig struct] (lines 49-53). *)
Record HashringConfig : Type := mkHashringConfig {
  Hashring : string;
  Tenants : slice string;
  Endpoints : slice string
}.

(** ** package encoding/json *)

Module json.

Definition dquote : string := String (ascii_of_nat 34) EmptyString.

(** A JSON object key followed by its colon. *)
Definition key (name : string) : string := dquote ++ name ++ dquote ++ ":".

Section Marshal.

(** The JSON string literal of a Go string (quotes and escapes). *)
Variable quote : string -> string.

(** A [[]string]: [null] for a nil slice. *)
Definition marshalStrings (s : slice string) : string :=
  match s with
  | nil_slice => "null"
  | mk_slice l => "[" ++ strings.Join (quote <$> l) "," ++ "]"
  end.

(** A [HashringConfig], fields in declaration order; [omitempty] drops an
    empty string and a slice of length zero. *)
Definition marshalHashring (h : HashringConfig) : string :=
  "{"
  ++ strings.Join
       ((if String.eqb (Hashring h) EmptyString then []
         else [key "hashring" ++ quote (Hashring h)])
        ++ (if (len (Tenants h) =? 0)%nat then []
            else [key "tenants" ++ marshalStrings (Tenants h)])
        ++ [key "endpoints" ++ marshalStrings (Endpoints h)])
       ","
  ++ "}".

(** [json.Marshal] of a [[]HashringConfig].  It returns no error on this
    type: every field is a string or a slice of strings. *)
Definition Marshal (hashrings : slice HashringConfig) : string :=
  match hashrings with
  | nil_slice => "null"
  | mk_slice l => "[" ++ strings.Join (marshalHashring <$> l) "," ++ "]"
  end.

End Marshal.

End json.

(** ** The world outside the process *)

(** An HTTP response as the prober sees it: the status code and the bytes
    [ioutil.ReadAll] returned for the body. *)
Record Response : Type := mkResponse {
  StatusCode : Z;
  Body : string
}.

(** [user.User]: the fields [saveHashringFile] reads. *)
Record User : Type := mkUser {
  Uid : string;
  Gid : string
}.

(** What a call of [ioutil.WriteFile] does to its target: it opens with
    [O_WRONLY|O_CREATE|O_TRUNC], writes and closes. *)
Inductive WriteOutcome : Type :=
| Written                 (* all bytes stored, nil error *)
| OpenFails               (* the open fails: target not touched *)
| ShortWrite (n : nat).   (* truncated, [n] bytes stored, then an error *)

(** [os.FileMode] type bits, as [Lstat] reports them. *)
Inductive FileMode : Type :=
| ModeRegular | ModeDir | ModeSymlink | ModeNamedPipe | ModeSocket | ModeDevice.

Definition IsDir (m : FileMode) : bool :=
  match m with ModeDir => true | _ => false end.

Definition IsRegular (m : FileMode) : bool :=
  match m with ModeRegular => true | _ => false end.

(** One call of the [filepath.Walk] callback: [(path, info, err)].  When
    [err] is not nil the callback does not look at [info]. *)
Inductive Visit : Type :=
| VisitOk (path : string) (info : FileMode)
| VisitErr (path : string).

(** A file on disk. *)
Record File : Type := mkFile {
  data : string;
  mtime : nat;
  owner : Z * Z
}.

(** What the environment decides: the network, the user database, the
    codecs and the faults of the file system. *)
Record Env : Type := mkEnv {
  (* http.NewRequest(GET, url, nil) returns no error *)
  http_url_ok : string -> bool;
  (* Client{Timeout}.Do on a GET of the url: None is a transport error *)
  http_do : Z -> string -> option Response;
  user_lookup : string -> option User;
  json_unmarshal : string -> option (slice HashringConfig);
  json_quote : string -> string;
  sha256_Sum256 : string -> string;
  fs_readable : string -> bool;
  fs_write : string -> WriteOutcome;
  fs_chown_ok : string -> bool;
  (* the calls filepath.Walk makes on a root, in its lexical order *)
  fs_walk : gmap string File -> string -> list Visit;
  (* owner of a file the process creates *)
  proc_owner : Z * Z
}.

Inductive Logger : Type := InfoLogger | DebugLogger | ErrorLogger.

(** The log lines of [main.go], one constructor per call site format. *)
Inductive Message : Type :=
| CannotSaveFileLookup (file : string)
| CannotSaveFileWrite (file : string)
| CannotSetOwner (owner file : string)
| FileSaved (file : string)
| ErrorOccurred
| ErrorSendingRequest
| EndpointIsReady (endpoint : string)
| EndpointIsNotReady (status : Z) (url body : string)
| UnableToReadFile (file : string)
| UnableToDecodeFile (file : string)
| NoUpdateNeeded (generatedFile : string)
| WalkError
| WatchingFiles (files : list string)
| TickAt
| CaughtSignal
| SchedulerStarted (interval : Z)
| SchedulerStopped.

(** The observable state: the disk, a clock that stamps writes, the log,
    the GET requests handed to [client.Do] (one entry per call, by URL) and
    the [WriteFile] calls made. *)
Record World : Type := mkWorld {
  fs : gmap string File;
  clock : nat;
  logs : list (Logger * Message);
  requests : list string;
  writes : list string
}.

Definition set_fs (f : gmap string File) (w : World) : World :=
  mkWorld f (clock w) (logs w) (requests w) (writes w).

Definition set_clock (c : nat) (w : World) : World :=
  mkWorld (fs w) c (logs w) (requests w) (writes w).

Definition add_log (e : Logger * Message) (w : World) : World :=
  mkWorld (fs w) (clock w) (logs w ++ [e]) (requests w) (writes w).

Definition add_request (url : string) (w : World) : World :=
  mkWorld (fs w) (clock w) (logs w) (requests w ++ [url]) (writes w).

Definition add_write (path : string) (w : World) : World :=
  mkWorld (fs w) (clock w) (logs w) (requests w) (writes w ++ [path]).

(** ** The effect monad: state passing, and a panic ends the process *)

Inductive PanicValue : Type :=
| IndexOutOfRange (i n : nat)
| NonPositiveInterval.    (* [time.NewTicker]: non-positive interval *)

Inductive Result (A : Type) : Type :=
| Ok (a : A) (w : World)
| Panic (p : PanicValue) (w : World).
Arguments Ok {A} a w.
Arguments Panic {A} p w.

Definition Go (A : Type) : Type := World -> Result A.

Definition ret {A} (a : A) : Go A := fun w => Ok a w.

Definition bind {A B} (m : Go A) (k : A -> Go B) : Go B :=
  fun w =>
    match m w with
    | Ok a w' => k a w'
    | Panic p w' => Panic p w'
    end.

Notation "x <- m ;; k" := (bind m (fun x => k))
  (at level 100, m at next level, right associativity).
Notation "m ;; k" := (bind m (fun _ => k))
  (at level 100, right associativity).

(** [l[i]] with Go's bounds check. *)
Definition index {A} (l : list A) (i : nat) : Go A :=
  fun w =>
    match l !! i with
    | Some x => Ok x w
    | None => Panic (IndexOutOfRange i (length l)) w
    end.

Definition Printf (l : Logger) (m : Message) : Go unit :=
  fun w => Ok tt (add_log (l, m) w).

(** ** Goroutines

    A group of goroutines joined by a [sync.WaitGroup] finishes in an order
    the scheduler picks.  [choices] is that pick: at each step the goroutine
    at position [choice mod (number still running)] is the next to finish.
    Every list of naturals is a schedule, and every completion order is the
    result of one.  [fanOut] runs the bodies in that order and returns their
    results in completion order. *)

Fixpoint fanOut {A B} (body : A -> Go B) (n : nat) (choices : list nat)
    (pending : list A) : Go (list B) :=
  match n with
  | O => ret []
  | S n' =>
      let i := (hd 0%nat choices mod length pending)%nat in
      match pending !! i with
      | None => ret []
      | Some a =>
          b <- body a ;;
          bs <- fanOut body n' (tail choices) (delete i pending) ;;
          ret (b :: bs)
      end
  end.

Definition goAll {A B} (body : A -> Go B) (choices : list nat)
    (tasks : list A) : Go (list B) :=
  fanOut body (length tasks) choices tasks.

(** The interleaving of one reconciliation run: the order in which the
    per-file goroutines finish and, for the hashring at position [pos] of
    a file, the order in which its probes finish. *)
Record Schedule : Type := mkSchedule {
  file_order : list nat;
  probe_order : string -> nat -> list nat
}.

(** ** The functions of [main.go] *)

Section Controller.

Context (env : Env).

(** *** System calls *)

(** [ioutil.ReadFile]: [None] is a non-nil error. *)
Definition ioutil_ReadFile (path : string) : Go (option string) :=
  fun w =>
    match fs w !! path with
    | Some f => if fs_readable env path then Ok (Some (data f)) w else Ok None w
    | None => Ok None w
    end.

(** [os.Stat]: [true] is a nil error; it succeeds on the paths that exist. *)
Definition os_Stat (path : string) : Go bool :=
  fun w => Ok (bool_decide (is_Some (fs w !! path))) w.

(** The file [WriteFile] leaves at [path] when it stored [bytes]: a file
    that existed keeps its owner, a new one belongs to the process. *)
Definition stored (path bytes : string) (w : World) : File :=
  mkFile bytes (clock w)
         (match fs w !! path with
          | Some f => owner f
          | None => proc_owner env
          end).

(** [ioutil.WriteFile(path, content, 0644)]: [true] is a nil error. *)
Definition ioutil_WriteFile (path content : string) : Go bool :=
  fun w =>
    let w1 := add_write path w in
    match fs_write env path with
    | Written =>
        Ok true (set_clock (S (clock w))
                   (set_fs (<[path := stored path content w]> (fs w)) w1))
    | OpenFails => Ok false w1
    | ShortWrite n =>
        Ok false (set_clock (S (clock w))
                    (set_fs (<[path := stored path (strings.take n content) w]>
                               (fs w)) w1))
    end.

(** [os.Chown]: [true] is a nil error. *)
Definition os_Chown (path : string) (uid gid : Z) : Go bool :=
  fun w =>
    match fs w !! path with
    | Some f =>
        if fs_chown_ok env path
        then Ok true (set_fs (<[path := mkFile (data f) (mtime f) (uid, gid)]>
                                (fs w)) w)
        else Ok false w
    | None => Ok false w
    end.

(** [httpClient(timeout).Do(req)] for a GET of [url], body read by
    [ioutil.ReadAll].  The call is recorded once; what the client does
    inside it (it follows redirects) shows only in the response. *)
Definition http_Do (timeout : Z) (url : string) : Go (option Response) :=
  fun w => Ok (http_do env timeout url) (add_request url w).

(** *** [saveHashringFile] (lines 60-81) *)

Definition saveHashringFile (file owner content : string) : Go unit :=
  match user_lookup env owner with
  | None => Printf ErrorLogger (CannotSaveFileLookup file)
  | Some g =>
      written <- ioutil_WriteFile file content ;;
      if negb written then Printf ErrorLogger (CannotSaveFileWrite file)
      else
        let uid := fst (strconv.Atoi (Uid g)) in
        let gid := fst (strconv.Atoi (Gid g)) in
        chowned <- os_Chown file uid gid ;;
        if negb chowned then Printf ErrorLogger (CannotSetOwner owner file)
        else Printf InfoLogger (FileSaved file)
  end.

(** *** [healthyEndpoint] (lines 83-113)

    The result is what the goroutine sends on [ch]: [Some endpoint], or
    [None] when it returns without sending. *)

Definition readyURL (scheme host : string) (port portOffset : Z) : string :=
  scheme ++ "://" ++ host ++ ":" ++ fmt_d (int_add port portOffset) ++ "/-/ready".

(** Lines 89-112: the request, the classification of the response and the
    send on [ch]. *)
Definition probe (url endpoint : string) (timeout : Z) (verbose : bool)
    : Go (option string) :=
  if negb (http_url_ok env url) then
    Printf ErrorLogger ErrorOccurred ;; ret None
  else
    response <- http_Do timeout url ;;
    match response with
    | None => Printf ErrorLogger ErrorSendingRequest ;; ret None
    | Some response =>
        if (StatusCode response =? 200) && String.eqb (Body response) "OK"
        then
          (if verbose then Printf DebugLogger (EndpointIsReady endpoint)
           else ret tt) ;;
          ret (Some endpoint)
        else
          Printf ErrorLogger
            (EndpointIsNotReady (StatusCode response) url (Body response)) ;;
          ret None
    end.

Definition healthyEndpoint (scheme endpoint : string) (timeout portOffset : Z)
    (verbose : bool) : Go (option string) :=
  let endpointSplit := strings.Split endpoint ":" in
  host <- index endpointSplit 0 ;;
  portText <- index endpointSplit 1 ;;
  let port := fst (strconv.Atoi portText) in
  let url := readyURL scheme host port portOffset in
  probe url endpoint timeout verbose.

(** *** [checkHashringFile] (lines 115-192) *)

(** Lines 133-148: one probe goroutine per endpoint, then the receive loop
    on [queue] until the channel is closed.  The values arrive in the order
    the probes finish. *)
Definition collectEndpoints (scheme : string) (timeout portOffset : Z)
    (verbose : bool) (choices : list nat) (hashring : HashringConfig)
    : Go (slice string) :=
  sent <- goAll (fun endpoint =>
                   healthyEndpoint scheme endpoint timeout portOffset verbose)
                choices (elems (Endpoints hashring)) ;;
  ret (appended (omap id sent)).

(** [sort.Strings] on a slice, in place; a nil slice stays nil. *)
Definition sortSlice (s : slice string) : slice string :=
  match s with
  | nil_slice => nil_slice
  | mk_slice l => mk_slice (sort_Strings l)
  end.

(** Lines 133-150 for one hashring: the value assigned on line 151. *)
Definition reconciledEndpoints (scheme : string) (timeout portOffset : Z)
    (verbose : bool) (choices : list nat) (hashring : HashringConfig)
    : Go (slice string) :=
  endpoints <- collectEndpoints scheme timeout portOffset verbose choices
                 hashring ;;
  ret (sortSlice endpoints).

(** The loop of lines 132-152 over the positions still to visit;
    [hashrings[pos].Endpoints = endpoints] updates the array in place. *)
Fixpoint rangeHashrings (scheme : string) (timeout portOffset : Z)
    (verbose : bool) (probes : nat -> list nat) (positions : list nat)
    (hashrings : list HashringConfig) : Go (list HashringConfig) :=
  match positions with
  | [] => ret hashrings
  | pos :: rest =>
      hashring <- index hashrings pos ;;
      endpoints <- reconciledEndpoints scheme timeout portOffset verbose
                     (probes pos) hashring ;;
      rangeHashrings scheme timeout portOffset verbose probes rest
        (<[pos := mkHashringConfig (Hashring hashring) (Tenants hashring)
                    endpoints]> hashrings)
  end.

Definition reconcile (scheme : string) (timeout portOffset : Z)
    (verbose : bool) (probes : nat -> list nat)
    (hashrings : slice HashringConfig) : Go (slice HashringConfig) :=
  match hashrings with
  | nil_slice => ret nil_slice
  | mk_slice l =>
      l' <- rangeHashrings scheme timeout portOffset verbose probes
              (seq 0 (length l)) l ;;
      ret (mk_slice l')
  end.

(** Line 165. *)
Definition generatedName (file : string) : Go string :=
  stem <- index (strings.Split file ".json") 0 ;;
  ret (stem ++ "_generated.json").

(** Lines 161-191: digest, comparison with the file on disk, save. *)
Definition materialize (file owner : string) (verbose : bool)
    (content : string) : Go unit :=
  let contentSha256Sum := sha256_Sum256 env content in
  generatedFile <- generatedName file ;;
  found <- os_Stat generatedFile ;;
  if found then
    body <- ioutil_ReadFile generatedFile ;;
    match body with
    | None => Printf ErrorLogger (UnableToReadFile file)
    | Some body =>
        let gFileSha256Sum := sha256_Sum256 env body in
        if String.eqb gFileSha256Sum contentSha256Sum then
          if verbose then Printf DebugLogger (NoUpdateNeeded generatedFile)
          else ret tt
        else saveHashringFile generatedFile owner content
    end
  else saveHashringFile generatedFile owner content.

(** [probes pos] is the order in which the probes of the hashring at
    position [pos] finish.  [json.Marshal] returns no error on a
    [[]HashringConfig], so the branch of lines 156-159 is never taken. *)
Definition checkHashringFile (file owner scheme : string)
    (endpointTimeout portOffset : Z) (verbose : bool)
    (probes : nat -> list nat) : Go unit :=
  body <- ioutil_ReadFile file ;;
  match body with
  | None => Printf ErrorLogger (UnableToReadFile file)
  | Some body =>
      match json_unmarshal env body with
      | None => Printf ErrorLogger (UnableToDecodeFile file)
      | Some hashrings =>
          hashrings <- reconcile scheme endpointTimeout portOffset verbose
                         probes hashrings ;;
          let content := json.Marshal (json_quote env) hashrings in
          materialize file owner verbose content
      end
  end.

(** *** [listHashringFiles] (lines 194-210) *)

(** The callback of line 196: the files so far, and whether it returns a
    non-nil error. *)
Definition walkFn (files : list string) (v : Visit) : list string * bool :=
  match v with
  | VisitErr _ => (files, true)
  | VisitOk path info =>
      if negb (IsDir info)
         && negb (strings.HasSuffix path "_generated.json")
         && strings.HasSuffix path ".json"
      then ((files ++ [path])%list, false)
      else (files, false)
  end.

(** [filepath.Walk] stops at the first non-nil error of the callback and
    returns it. *)
Fixpoint Walk (visits : list Visit) (files : list string) : list string * bool :=
  match visits with
  | [] => (files, false)
  | v :: visits' =>
      let (files', err) := walkFn files v in
      if err then (files', true) else Walk visits' files'
  end.

Definition listHashringFiles (directory : string) : Go (list string) :=
  fun w =>
    let (files, err) := Walk (fs_walk env (fs w) directory) [] in
    ((if err then Printf ErrorLogger WalkError else ret tt) ;; ret files) w.

(** *** [run] (lines 212-220) and [buildFilesList] (lines 222-233)

    One goroutine per file, joined by [wg.Wait]; the goroutines finish in
    the order [file_order] picks, and each file is processed in one piece. *)

Definition run (files : list string) (owner scheme : string)
    (timeout portOffset : Z) (verbose : bool) (sch : Schedule) : Go unit :=
  goAll (fun file =>
           checkHashringFile file owner scheme timeout portOffset verbose
             (probe_order sch file))
        (file_order sch) files ;;
  ret tt.

Definition buildFilesList (directory file : string) (verbose : bool)
    : Go (list string) :=
  hashringFiles <- (if negb (String.eqb file EmptyString) then ret [file]
                    else listHashringFiles directory) ;;
  (if verbose then Printf DebugLogger (WatchingFiles hashringFiles)
   else ret tt) ;;
  ret hashringFiles.

End Controller.

(** ** [main] (lines 235-305) *)

(** The parsed command line. *)
Record Flags : Type := mkFlags {
  flag_file : string;
  flag_directory : string;
  flag_owner : string;
  flag_endpointScheme : string;
  flag_endpointTimeout : Z;
  flag_endpointPortOffset : Z;
  flag_interval : Z;
  flag_schedule : bool;
  flag_verbose : bool;
  flag_version : bool
}.

(** The defaults of lines 240-249. *)
Definition defaultFlags : Flags :=
  mkFlags EmptyString EmptyString "thanos" "http" 5 1 10 false false false.

Inductive Signal : Type := SIGINT | SIGTERM.

(** The goroutine of lines 275-286: blocked in [select], or inside [run]
    with the files whose [checkHashringFile] has not finished yet. *)
Inductive Ticking : Type :=
| AtSelect
| InRun (todo : list string).

Inductive Status : Type :=
| Alive
| Exited                       (* main returned: the process is gone *)
| Crashed (p : PanicValue).

(** The process in scheduled mode, after line 301. *)
Record Sched : Type := mkSched {
  sched_world : World;
  sched_status : Status;
  sched_ticking : Ticking;
  (* the channel of line 289, capacity 1 *)
  sched_sigs : option Signal;
  (* the goroutine of lines 294-299 is still blocked on the channel *)
  sched_handler_waiting : bool;
  (* a value is buffered in the channel of line 290, capacity 1 *)
  sched_signalDone : bool
}.

(** What can happen next.  No event sends on [scheduleDone]: the program
    has no send on that channel, so the first case of the [select] never
    fires. *)
Inductive Event : Type :=
| EvTick                                   (* the ticker fires *)
| EvFileDone (i : nat) (probes : nat -> list nat)
                                           (* a file goroutine of run finishes *)
| EvRunDone                                (* wg.Wait of run returns *)
| EvSignal (sig : Signal)                  (* the OS delivers a signal *)
| EvHandler                                (* line 295 receives it *)
| EvMainReturns.                           (* line 302 receives; main returns *)

Inductive FatalMessage : Type :=
| FatalArguments
| FatalInterval (interval timeout : Z).

Inductive Outcome : Type :=
| ExitVersion (w : World)                  (* prints AppVersion, os.Exit(0) *)
| Fatal (m : FatalMessage) (w : World)     (* log.Fatal: os.Exit(1) *)
| Returned (w : World)                     (* one-shot mode, main returns *)
| Panicked (p : PanicValue) (w : World)
| Scheduling (s : Sched).                  (* scheduled mode, after line 301 *)

Section Main.

Context (env : Env).

Definition set_sched_world (w : World) (s : Sched) : Sched :=
  mkSched w (sched_status s) (sched_ticking s) (sched_sigs s)
          (sched_handler_waiting s) (sched_signalDone s).

(** One step of the scheduled process; [None] when the event cannot
    happen in this state.  When main has returned the program exits without
    waiting for the other goroutines, so nothing happens after that. *)
Definition sched_step (flags : Flags) (s : Sched) (e : Event) : option Sched :=
  match sched_status s with
  | Exited | Crashed _ => None
  | Alive =>
      match e, sched_ticking s with
      | EvTick, AtSelect =>
          match (Printf InfoLogger TickAt ;;
                 buildFilesList env (flag_directory flags) (flag_file flags)
                   (flag_verbose flags)) (sched_world s) with
          | Ok hashringFiles w =>
              Some (mkSched w Alive (InRun hashringFiles) (sched_sigs s)
                      (sched_handler_waiting s) (sched_signalDone s))
          | Panic p w =>
              Some (mkSched w (Crashed p) AtSelect (sched_sigs s)
                      (sched_handler_waiting s) (sched_signalDone s))
          end
      | EvFileDone i probes, InRun todo =>
          match todo !! i with
          | None => None
          | Some file =>
              match checkHashringFile env file (flag_owner flags)
                      (flag_endpointScheme flags) (flag_endpointTimeout flags)
                      (flag_endpointPortOffset flags) (flag_verbose flags)
                      probes (sched_world s) with
              | Ok _ w =>
                  Some (mkSched w Alive (InRun (delete i todo)) (sched_sigs s)
                          (sched_handler_waiting s) (sched_signalDone s))
              | Panic p w =>
                  Some (mkSched w (Crashed p) (InRun todo) (sched_sigs s)
                          (sched_handler_waiting s) (sched_signalDone s))
              end
          end
      | EvRunDone, InRun [] =>
          Some (mkSched (sched_world s) Alive AtSelect (sched_sigs s)
                  (sched_handler_waiting s) (sched_signalDone s))
      | EvSignal sig, _ =>
          match sched_sigs s with
          | Some _ => None
          | None =>
              Some (mkSched (sched_world s) Alive (sched_ticking s) (Some sig)
                      (sched_handler_waiting s) (sched_signalDone s))
          end
      | EvHandler, _ =>
          match sched_sigs s, sched_handler_waiting s with
          | Some _, true =>
              Some (mkSched (add_log (InfoLogger, CaughtSignal) (sched_world s))
                      Alive (sched_ticking s) None false true)
          | _, _ => None
          end
      | EvMainReturns, _ =>
          if sched_signalDone s then
            Some (mkSched (add_log (InfoLogger, SchedulerStopped) (sched_world s))
                    Exited (sched_ticking s) (sched_sigs s)
                    (sched_handler_waiting s) false)
          else None
      | _, _ => None
      end
  end.

Fixpoint sched_exec (flags : Flags) (s : Sched) (events : list Event)
    : option Sched :=
  match events with
  | [] => Some s
  | e :: events' =>
      match sched_step flags s e with
      | Some s' => sched_exec flags s' events'
      | None => None
      end
  end.

(** [time.Second], in nanoseconds. *)
Definition time_Second : Z := 1000000000.

(** The argument of [time.NewTicker] on line 272, the flag's value times
    [time.Second]: a product of [int64], which wraps around. *)
Definition tickerDuration (flags : Flags) : Z :=
  wrap64 (flag_interval flags * time_Second).

(** [time.NewTicker(d)] panics when [d <= 0]. *)
Definition time_NewTicker_panics (d : Z) : bool := d <=? 0.

(** Lines 272-301: the ticker, the channels and the two goroutines exist,
    the start line is logged, main blocks on line 302. *)
Definition sched_start (flags : Flags) (w : World) : Sched :=
  mkSched (add_log (InfoLogger, SchedulerStarted (flag_interval flags)) w)
          Alive AtSelect None true false.

Definition main (flags : Flags) (sch : Schedule) (w : World) : Outcome :=
  let file := flag_file flags in
  let directory := flag_directory flags in
  if flag_version flags then ExitVersion w
  else if (String.eqb directory EmptyString && String.eqb file EmptyString)
          || (negb (String.eqb directory EmptyString)
              && negb (String.eqb file EmptyString))
  then Fatal FatalArguments w
  else if flag_interval flags <=? flag_endpointTimeout flags
  then Fatal (FatalInterval (flag_interval flags) (flag_endpointTimeout flags)) w
  else if negb (flag_schedule flags) then
    match (hashringFiles <- buildFilesList env directory file (flag_verbose flags) ;;
           run env hashringFiles (flag_owner flags) (flag_endpointScheme flags)
             (flag_endpointTimeout flags) (flag_endpointPortOffset flags)
             (flag_verbose flags) sch) w with
    | Ok _ w' => Returned w'
    | Panic p w' => Panicked p w'
    end
  else if time_NewTicker_panics (tickerDuration flags)
  then Panicked NonPositiveInterval w
  else Scheduling (sched_start flags w).

End Main.

(** ** Notions the statements use *)

Definition world_of {A} (r : Result A) : World :=
  match r with
  | Ok _ w => w
  | Panic _ w => w
  end.

Definition emptyWorld : World := mkWorld ∅ 0 [] [] [].

(** The address contains the separator on which line 85 splits. *)
Definition hasSeparator (endpoint : string) : bool :=
  bool_decide (is_Some (strings.Index endpoint ":")).

(** The probe of this address returned ready: its goroutine sends on the
    channel. *)
Definition ready (env : Env) (scheme : string) (timeout portOffset : Z)
    (endpoint : string) : bool :=
  match healthyEndpoint env scheme endpoint timeout portOffset false
          emptyWorld with
  | Ok (Some _) _ => true
  | _ => false
  end.

(** Every member address of every definition has a separator. *)
Definition wellFormed (hashrings : slice HashringConfig) : Prop :=
  Forall (fun h => Forall (fun e => hasSeparator e = true)
                     (elems (Endpoints h)))
         (elems hashrings).

(** The sorted ready members of one definition. *)
Definition readyMembers (env : Env) (scheme : string) (timeout portOffset : Z)
    (hashring : HashringConfig) : list string :=
  sort_Strings
    (filter (fun e => ready env scheme timeout portOffset e = true)
            (elems (Endpoints hashring))).

Definition reconciledHashring (env : Env) (scheme : string)
    (timeout portOffset : Z) (hashring : HashringConfig) : HashringConfig :=
  mkHashringConfig (Hashring hashring) (Tenants hashring)
    (appended (readyMembers env scheme timeout portOffset hashring)).

Definition reconciled (env : Env) (scheme : string) (timeout portOffset : Z)
    (hashrings : slice HashringConfig) : slice HashringConfig :=
  match hashrings with
  | nil_slice => nil_slice
  | mk_slice l =>
      mk_slice (reconciledHashring env scheme timeout portOffset <$> l)
  end.

(** The part of a path before its first [.json], the whole path when it
    has none. *)
Definition stem (file : string) : string :=
  match strings.Index file ".json" with
  | Some m => strings.take m file
  | None => file
  end.

Definition derivedName (file : string) : string := stem file ++ "_generated.json".

Fixpoint allDigits (s : string) : bool :=
  match s with
  | EmptyString => true
  | String c s' => strconv.isDigit c && allDigits s'
  end.

(** A decimal integer literal: an optional sign and at least one digit. *)
Definition isNumeral (s : string) : bool :=
  match s with
  | EmptyString => false
  | String c s' =>
      if Ascii.eqb c "-" || Ascii.eqb c "+"
      then negb (String.eqb s' EmptyString) && allDigits s'
      else allDigits s
  end.

(** The configuration breaks an invariant of lines 258-264: both or neither
    of the two modes, or an interval not above the timeout. *)
Definition violatesInvariant (flags : Flags) : bool :=
  (String.eqb (flag_directory flags) EmptyString
   && String.eqb (flag_file flags) EmptyString)
  || (negb (String.eqb (flag_directory flags) EmptyString)
      && negb (String.eqb (flag_file flags) EmptyString))
  || (flag_interval flags <=? flag_endpointTimeout flags).

(** The configuration passes the checks of lines 258-264, asks for the
    scheduler, and its interval is not a positive number of nanoseconds:
    zero or less (above a lower timeout), or so large that the product of
    line 272 wraps around to zero or less. *)
Definition unusableInterval (flags : Flags) : bool :=
  negb (violatesInvariant flags) && flag_schedule flags
  && time_NewTicker_panics (tickerDuration flags).

(** The process ends at start-up, before line 275: through [log.Fatal], or
    through the panic of [time.NewTicker]. *)
Definition diesAtStartup (o : Outcome) : bool :=
  match o with
  | Fatal _ _ | Panicked NonPositiveInterval _ => true
  | _ => false
  end.

(** The only panic the computation can end in is an index out of range. *)
Definition indexPanics {A} (m : Go A) : Prop :=
  forall w p w', m w = Panic p w' -> exists i n, p = IndexOutOfRange i n.

(** The disk, the clock and the record of writes are the same in both
    worlds; logs and requests may differ. *)
Definition sameDisk (w w' : World) : Prop :=
  fs w' = fs w /\ clock w' = clock w /\ writes w' = writes w.

(** The request for [url] can be built and is answered by status 200 with
    body [OK]. *)
Definition answersReady (env : Env) (timeout : Z) (url : string) : bool :=
  http_url_ok env url
  && match http_do env timeout url with
     | Some response =>
         (StatusCode response =? 200) && String.eqb (Body response) "OK"
     | None => false
     end.

(** The computation never changes a file, whether it returns or panics. *)
Definition keepsFs {A} (m : Go A) : Prop :=
  forall w, fs (world_of (m w)) = fs w.

(** The definitions with every member list emptied (a nil slice). *)
Definition withoutMembers (hashrings : slice HashringConfig)
    : slice HashringConfig :=
  match hashrings with
  | nil_slice => nil_slice
  | mk_slice l =>
      mk_slice ((fun h => mkHashringConfig (Hashring h) (Tenants h) nil_slice)
                  <$> l)
  end.

(** ** A small deployment, for examples *)

Module demo.

(** String literals without characters that need an escape. *)
Definition quote (s : string) : string := json.dquote ++ s ++ json.dquote.

Definition hashring : HashringConfig :=
  mkHashringConfig EmptyString nil_slice
    (mk_slice ["c:10901"; "b:10901"; "a:10901"]).

Definition source : string := json.Marshal quote (mk_slice [hashring]).

Definition path : string := "/etc/thanos/hashring.json".

(** Every member answers 200 OK, except the members in [down], which refuse
    the connection. *)
Definition env (down : list string) : Env :=
  mkEnv (fun _ => true)
        (fun _ url => if bool_decide (url ∈ down) then None
                      else Some (mkResponse 200 "OK"))
        (fun o => if String.eqb o "thanos" then Some (mkUser "1000" "1000")
                  else None)
        (fun body => if String.eqb body source then Some (mk_slice [hashring])
                     else None)
        quote (fun s => s) (fun _ => true) (fun _ => Written) (fun _ => true)
        (fun _ _ => []) (0, 0).

Definition b_down : Env := env ["http://b:10902/-/ready"].

Definition all_down : Env :=
  env ["http://a:10902/-/ready"; "http://b:10902/-/ready";
       "http://c:10902/-/ready"].

Definition world : World :=
  mkWorld {[ path := mkFile source 0 (0, 0) ]} 1 [] [] [].

Definition two : slice HashringConfig :=
  mk_slice [mkHashringConfig "hot" (mk_slice ["tenant-a"])
              (mk_slice ["b:10901"; "a:10901"]);
            mkHashringConfig "default" nil_slice (mk_slice ["c:10901"])].

(** A directory with a source file, a derived file, a subdirectory and a
    symbolic link. *)
Definition visits : list Visit :=
  [VisitOk "/etc/thanos" ModeDir;
   VisitOk "/etc/thanos/current.json" ModeSymlink;
   VisitOk "/etc/thanos/hashring.json" ModeRegular;
   VisitOk "/etc/thanos/hashring_generated.json" ModeRegular;
   VisitOk "/etc/thanos/old.json" ModeDir].

Definition linked : Env :=
  mkEnv (fun _ => true) (fun _ _ => Some (mkResponse 200 "OK"))
        (fun _ => None) (fun _ => None) quote (fun s => s)
        (fun _ => true) (fun _ => Written) (fun _ => true)
        (fun _ _ => visits) (0, 0).

Definition oneShot : Schedule := mkSchedule [] (fun _ _ => []).

(** A second source file, and a deployment in which the derived file of the
    first source cannot be opened for writing. *)
Definition other : string := "/etc/thanos/other.json".

Definition picky : Env :=
  mkEnv (fun _ => true) (fun _ _ => Some (mkResponse 200 "OK"))
        (fun _ => Some (mkUser "1000" "1000"))
        (fun body => if String.eqb body source then Some (mk_slice [hashring])
                     else None)
        quote (fun s => s) (fun _ => true)
        (fun p => if String.eqb p "/etc/thanos/hashring_generated.json"
                  then OpenFails else Written)
        (fun _ => true) (fun _ _ => []) (0, 0).

Definition two_files : World :=
  mkWorld {[ path := mkFile source 0 (0, 0); other := mkFile source 0 (0, 0) ]}
          1 [] [] [].

End demo.

(** * Notions of the further properties *)

(** How the computation ends: it returns, or it panics with a value. *)
Definition verdict {A} (r : Result A) : option PanicValue :=
  match r with
  | Ok _ _ => None
  | Panic p _ => Some p
  end.

(** The computation leaves the disk, the clock and the record of writes as
    they were, whether it returns or panics. *)
Definition keepsDisk {A} (m : Go A) : Prop :=
  forall w, sameDisk w (world_of (m w)).

(** The URL line 88 builds for a member address (the empty string for an
    address that line 87 cannot index). *)
Definition memberURL (scheme : string) (portOffset : Z) (endpoint : string)
    : string :=
  match strings.Split endpoint ":" with
  | host :: portText :: _ =>
      readyURL scheme host (fst (strconv.Atoi portText)) portOffset
  | _ => EmptyString
  end.

(** The URLs the probes of these members hand to [client.Do]: one per
    member whose request can be built. *)
Definition probedURLs (env : Env) (scheme : string) (portOffset : Z)
    (members : list string) : list string :=
  members ≫= (fun e => if http_url_ok env (memberURL scheme portOffset e)
                       then [memberURL scheme portOffset e] else []).

(** Every member address of a file, definition after definition. *)
Definition allMembers (hashrings : slice HashringConfig) : list string :=
  elems hashrings ≫= (fun h => elems (Endpoints h)).

(** The path the callback of line 196 keeps for a visit, if any. *)
Definition selected (v : Visit) : option string :=
  match v with
  | VisitOk path info =>
      if negb (IsDir info)
         && negb (strings.HasSuffix path "_generated.json")
         && strings.HasSuffix path ".json"
      then Some path else None
  | VisitErr _ => None
  end.

(** The visits before the first one that carries an error. *)
Fixpoint beforeError (visits : list Visit) : list Visit :=
  match visits with
  | VisitOk path info :: visits' => VisitOk path info :: beforeError visits'
  | _ => []
  end.

(** The walk carries an error. *)
Fixpoint hasError (visits : list Visit) : bool :=
  match visits with
  | [] => false
  | VisitOk _ _ :: visits' => hasError visits'
  | VisitErr _ :: _ => true
  end.

(** Every [WriteFile] call the computation makes, whether it returns or
    panics, has a target that satisfies [P]. *)
Definition writesOnly {A} (P : string -> Prop) (m : Go A) : Prop :=
  forall w, exists ws,
    writes (world_of (m w)) = (writes w ++ ws)%list /\ Forall P ws.

(** The only [.json] of the path is its extension. *)
Definition plainSource (file : string) : Prop :=
  strings.Index file ".json" = Some (String.length file - 5)%nat.

(** The scheduled process has seen no signal yet: the channels of lines
    289-290 are empty and the goroutine of line 294 is still waiting. *)
Definition unsignalled (s : Sched) : Prop :=
  sched_sigs s = None /\ sched_handler_waiting s = true
  /\ sched_signalDone s = false /\ sched_status s <> Exited.

Definition isSignal (e : Event) : bool :=
  match e with EvSignal _ => true | _ => false end.

(** ** More deployments, for the examples of the further properties *)

Module fixtures.

(** Every member answers 200 OK and the owner [thanos] resolves; the source
    text of [demo] decodes to [decoded]; [readable] and [chown] set the
    faults of the disk. *)
Definition make (decoded : slice HashringConfig) (readable : string -> bool)
    (chown : bool) : Env :=
  mkEnv (fun _ => true) (fun _ _ => Some (mkResponse 200 "OK"))
        (fun o => if String.eqb o "thanos" then Some (mkUser "1000" "1000")
                  else None)
        (fun body => if String.eqb body demo.source then Some decoded else None)
        demo.quote (fun s => s) readable (fun _ => Written) (fun _ => chown)
        (fun _ _ => []) (0, 0).

Definition derived : string := "/etc/thanos/hashring_generated.json".

(** A second definition with an address that has no port. *)
Definition malformed : Env :=
  make (mk_slice [demo.hashring;
                  mkHashringConfig "cold" nil_slice
                    (mk_slice ["a:10901"; "localhost"])])
       (fun _ => true) true.

Definition healthy : Env := make (mk_slice [demo.hashring]) (fun _ => true) true.

(** The derived file cannot be read. *)
Definition locked : Env :=
  make (mk_slice [demo.hashring]) (fun p => negb (String.eqb p derived)) true.

Definition no_chown : Env :=
  make (mk_slice [demo.hashring]) (fun _ => true) false.

(** The disk is full: every write fails after the open, with no byte
    stored. *)
Definition disk_full : Env :=
  mkEnv (fun _ => true) (fun _ _ => Some (mkResponse 200 "OK"))
        (fun o => if String.eqb o "thanos" then Some (mkUser "1000" "1000")
                  else None)
        (fun body => if String.eqb body demo.source
                     then Some (mk_slice [demo.hashring]) else None)
        demo.quote (fun s => s) (fun _ => true) (fun _ => ShortWrite 0)
        (fun _ => true) (fun _ _ => []) (0, 0).

(** The disk of [demo] with an outdated derived file owned by 7:7. *)
Definition stale_world : World :=
  mkWorld {[ demo.path := mkFile demo.source 0 (0, 0);
             derived := mkFile "[]" 0 (7, 7) ]} 1 [] [] [].

Definition file_flags (schedule : bool) : Flags :=
  mkFlags demo.path EmptyString "thanos" "http" 5 1 10 schedule false false.

(** The scheduled process inside a run, the file of [demo] still to do. *)
Definition mid_run : Sched :=
  mkSched demo.world Alive (InRun [demo.path]) None true false.

End fixtures.

(** * Properties *)

(** ** Strings *)

Module strings_facts.
Import strings.

Lemma app_cons (c : ascii) (s t : string) : String c s ++ t = String c (s ++ t).
Proof. reflexivity. Qed.

Lemma app_empty (t : string) : EmptyString ++ t = t.
Proof. reflexivity. Qed.

Lemma length_app (s t : string) :
  String.length (s ++ t) = (String.length s + String.length t)%nat.
Proof.
  induction s as [|c s IH]; [done|]. rewrite app_cons. simpl. by rewrite IH.
Qed.

Lemma take_drop (n : nat) (s : string) : take n s ++ drop n s = s.
Proof.
  revert n; induction s as [|c s IH]; intros [|n]; simpl; try done.
  by rewrite app_cons, IH.
Qed.

Lemma length_take (n : nat) (s : string) :
  String.length (take n s) = Nat.min n (String.length s).
Proof.
  revert n; induction s as [|c s IH]; intros [|n]; simpl; try done.
  by rewrite IH.
Qed.

Lemma length_drop (n : nat) (s : string) :
  String.length (drop n s) = (String.length s - n)%nat.
Proof.
  revert n; induction s as [|c s IH]; intros [|n]; simpl; try done.
Qed.

Lemma drop_app_length (p s : string) : drop (String.length p) (p ++ s) = s.
Proof.
  induction p as [|c p IH]; [by destruct s|]. rewrite app_cons. simpl. done.
Qed.

Lemma take_app_length (p s : string) : take (String.length p) (p ++ s) = p.
Proof.
  induction p as [|c p IH]; [by destruct s|]. rewrite app_cons. simpl.
  by rewrite IH.
Qed.

Lemma HasSuffix_true (s suffix : string) :
  HasSuffix s suffix = true <-> exists p, s = p ++ suffix.
Proof.
  unfold HasSuffix. rewrite andb_true_iff, Nat.leb_le, String.eqb_eq. split.
  - intros [_ Hd]. exists (take (String.length s - String.length suffix) s).
    pose proof (take_drop (String.length s - String.length suffix) s) as Htd.
    by rewrite Hd in Htd.
  - intros [p ->]. rewrite length_app. split; [lia|].
    replace (String.length p + String.length suffix - String.length suffix)%nat
      with (String.length p) by lia.
    apply drop_app_length.
Qed.

Lemma HasPrefix_true (s prefix : string) :
  HasPrefix s prefix = true <-> exists r, s = prefix ++ r.
Proof.
  unfold HasPrefix. rewrite andb_true_iff, Nat.leb_le, String.eqb_eq. split.
  - intros [_ Ht]. exists (drop (String.length prefix) s).
    pose proof (take_drop (String.length prefix) s) as Htd.
    by rewrite Ht in Htd.
  - intros [r ->]. rewrite length_app. split; [lia|]. apply take_app_length.
Qed.

Lemma Index_Some (s sep : string) (m : nat) :
  Index s sep = Some m ->
  HasPrefix (drop m s) sep = true /\ (m <= String.length s)%nat
  /\ forall k, (k < m)%nat -> HasPrefix (drop k s) sep = false.
Proof.
  revert m; induction s as [|c s IH]; intros m; simpl.
  - destruct (HasPrefix "" sep) eqn:E; [|done]. intros [= <-]. simpl.
    split; [done|]. split; [lia|]. intros; lia.
  - destruct (HasPrefix (String c s) sep) eqn:E.
    + intros [= <-]. simpl. split; [done|]. split; [lia|]. intros; lia.
    + destruct (Index s sep) as [m'|] eqn:Ei; simpl; [|done].
      intros [= <-]. destruct (IH m' eq_refl) as (H1 & H2 & H3).
      split; [done|]. split; [lia|].
      intros [|k] Hk; simpl; [done|]. apply H3. lia.
Qed.

Lemma Index_None (s sep : string) :
  Index s sep = None -> forall k, HasPrefix (drop k s) sep = false.
Proof.
  induction s as [|c s IH]; simpl.
  - destruct (HasPrefix "" sep) eqn:E; [done|]. intros _ [|k]; done.
  - destruct (HasPrefix (String c s) sep) eqn:E; [done|].
    destruct (Index s sep) eqn:Ei; simpl; [done|].
    intros _ [|k]; simpl; [done|]. by apply IH.
Qed.

(** The first element of [Split]: the prefix before the first occurrence of
    the separator, the whole string when there is none. *)
Lemma Split_head (s sep : string) :
  sep <> EmptyString ->
  exists rest,
    Split s sep = (match Index s sep with
                   | Some m => take m s
                   | None => s
                   end) :: rest.
Proof.
  intros Hsep. unfold Split. destruct sep as [|c sep]; [done|].
  destruct s as [|d s].
  - simpl. unfold HasPrefix. simpl. by eexists.
  - cbn [String.length genSplit].
    destruct (Index (String d s) (String c sep)); by eexists.
Qed.

Lemma Split_second (s sep : string) :
  sep <> EmptyString ->
  is_Some (Split s sep !! 1%nat) <-> is_Some (Index s sep).
Proof.
  intros Hsep. unfold Split. destruct sep as [|c sep]; [done|].
  destruct s as [|d s].
  - simpl. unfold HasPrefix. simpl. split; intros [? ?]; done.
  - cbn [String.length genSplit].
    destruct (Index (String d s) (String c sep)) as [m|].
    + split; [by eexists|]. intros _.
      destruct s; simpl.
      * destruct (Index _ _); by eexists.
      * destruct (Index _ _); by eexists.
    + split; intros [? ?]; done.
Qed.

Lemma Index_empty_string (sep : string) (m : nat) :
  Index EmptyString sep = Some m -> sep = EmptyString.
Proof.
  simpl. unfold HasPrefix. destruct sep as [|c sep]; [done|]. simpl. done.
Qed.

(** The bound [len(s)] on the loop of [genSplit] is enough: more fuel
    gives the same result. *)
Lemma genSplit_fuel (sep : string) (fuel1 : nat) :
  sep <> EmptyString ->
  forall (s : string) (fuel2 : nat),
    (String.length s <= fuel1)%nat -> (String.length s <= fuel2)%nat ->
    genSplit fuel1 s sep = genSplit fuel2 s sep.
Proof.
  intros Hsep. induction fuel1 as [|fuel1 IH]; intros s fuel2 H1 H2.
  - destruct s; [|simpl in H1; lia].
    destruct fuel2; simpl; destruct (HasPrefix "" sep) eqn:E; try done.
    all: exfalso; apply Hsep; apply (Index_empty_string sep 0%nat);
      simpl; by rewrite E.
  - cbn [genSplit]. destruct (Index s sep) as [m|] eqn:Ei.
    2:{ destruct fuel2; cbn [genSplit]; by rewrite Ei. }
    assert (s <> EmptyString) as Hs.
    { intros ->. by apply Hsep, (Index_empty_string sep m). }
    assert (0 < String.length s)%nat as Hlen.
    { destruct s; [done | simpl; lia]. }
    assert (0 < String.length sep)%nat as Hlsep.
    { destruct sep; [done | simpl; lia]. }
    destruct fuel2 as [|fuel2]; [lia|]. cbn [genSplit]. rewrite Ei. f_equal.
    apply IH; rewrite length_drop; lia.
Qed.

End strings_facts.

(** ** Frames *)

Lemma sameDisk_refl w : sameDisk w w.
Proof. by repeat split. Qed.

Lemma sameDisk_trans w1 w2 w3 : sameDisk w1 w2 -> sameDisk w2 w3 -> sameDisk w1 w3.
Proof. intros (?&?&?) (?&?&?). repeat split; congruence. Qed.

Lemma sameDisk_add_log e w : sameDisk w (add_log e w).
Proof. by repeat split. Qed.

Lemma sameDisk_add_request u w : sameDisk w (add_request u w).
Proof. by repeat split. Qed.

#[local] Hint Resolve sameDisk_refl sameDisk_add_log sameDisk_add_request : core.

(** ** The prober *)

Section Probing.
Context (env : Env).

Lemma probe_result url endpoint timeout verbose w :
  exists w',
    probe env url endpoint timeout verbose w
    = Ok (if answersReady env timeout url then Some endpoint else None) w'
    /\ sameDisk w w'.
Proof.
  unfold probe, answersReady.
  destruct (http_url_ok env url); simpl.
  2:{ eexists; split; [reflexivity|]. auto. }
  unfold bind, http_Do. destruct (http_do env timeout url) as [r|]; simpl.
  2:{ eexists; split; [reflexivity|].
      eapply sameDisk_trans; [apply sameDisk_add_request | apply sameDisk_add_log]. }
  destruct ((StatusCode r =? 200) && (Body r =? "OK")%string); simpl.
  - destruct verbose; simpl; eexists; (split; [reflexivity|]).
    + eapply sameDisk_trans; [apply sameDisk_add_request | apply sameDisk_add_log].
    + auto.
  - eexists; split; [reflexivity|].
    eapply sameDisk_trans; [apply sameDisk_add_request | apply sameDisk_add_log].
Qed.

Lemma hasSeparator_Split endpoint :
  hasSeparator endpoint = true ->
  exists host portText rest,
    strings.Split endpoint ":" = host :: portText :: rest.
Proof.
  unfold hasSeparator. rewrite bool_decide_eq_true. intros Hi.
  apply (strings_facts.Split_second endpoint ":") in Hi; [|done].
  destruct Hi as [p Hp].
  destruct (strings.Split endpoint ":") as [|host [|portText rest]]; try done.
  by eexists _, _, _.
Qed.

Lemma noSeparator_Split endpoint :
  hasSeparator endpoint = false -> strings.Split endpoint ":" = [endpoint].
Proof.
  unfold hasSeparator. rewrite bool_decide_eq_false. intros Hi.
  assert (strings.Index endpoint ":" = None) as Hn.
  { destruct (strings.Index endpoint ":"); [|done]. exfalso. apply Hi. by eexists. }
  unfold strings.Split. destruct endpoint as [|c s]; [reflexivity|].
  cbn [String.length strings.genSplit]. by rewrite Hn.
Qed.

Lemma healthyEndpoint_parsed scheme endpoint timeout portOffset verbose
    host portText rest w :
  strings.Split endpoint ":" = host :: portText :: rest ->
  healthyEndpoint env scheme endpoint timeout portOffset verbose w
  = probe env (readyURL scheme host (fst (strconv.Atoi portText)) portOffset)
      endpoint timeout verbose w.
Proof. intros Hs. unfold healthyEndpoint. rewrite Hs. reflexivity. Qed.

Lemma healthyEndpoint_no_separator scheme endpoint timeout portOffset verbose w :
  hasSeparator endpoint = false ->
  healthyEndpoint env scheme endpoint timeout portOffset verbose w
  = Panic (IndexOutOfRange 1 1) w.
Proof.
  intros Hs. unfold healthyEndpoint. rewrite (noSeparator_Split _ Hs). reflexivity.
Qed.

Lemma healthyEndpoint_ready scheme endpoint timeout portOffset verbose w :
  hasSeparator endpoint = true ->
  exists w',
    healthyEndpoint env scheme endpoint timeout portOffset verbose w
    = Ok (if ready env scheme timeout portOffset endpoint then Some endpoint
          else None) w'
    /\ sameDisk w w'.
Proof.
  intros Hs. destruct (hasSeparator_Split _ Hs) as (host & portText & rest & Hsp).
  unfold ready.
  rewrite !(healthyEndpoint_parsed _ _ _ _ _ _ _ _ _ Hsp).
  set (url := readyURL _ _ _ _).
  destruct (probe_result url endpoint timeout false emptyWorld) as (w0 & -> & _).
  destruct (probe_result url endpoint timeout verbose w) as (w' & -> & Hd).
  exists w'. split; [|done]. by destruct (answersReady env timeout url).
Qed.

End Probing.

(** ** Goroutine groups *)

Section FanOut.
Context {A B : Type} (body : A -> Go B) (f : A -> B).

Lemma fanOut_results (n : nat) :
  forall (pending : list A) choices w,
    n = length pending ->
    (forall a w, a ∈ pending ->
                 exists w', body a w = Ok (f a) w' /\ sameDisk w w') ->
    exists bs w',
      fanOut body n choices pending w = Ok bs w'
      /\ bs ≡ₚ f <$> pending /\ sameDisk w w'.
Proof.
  induction n as [|n IH]; intros pending choices w Hn Hbody.
  - destruct pending; [|done]. exists [], w. simpl. auto.
  - cbn [fanOut].
    set (i := (hd 0%nat choices mod length pending)%nat).
    assert (i < length pending)%nat as Hi.
    { apply Nat.mod_upper_bound. lia. }
    destruct (lookup_lt_is_Some_2 pending i Hi) as [a Ha].
    rewrite Ha. unfold bind.
    destruct (Hbody a w) as (w1 & Hb & Hd1).
    { by eapply list_elem_of_lookup_2. }
    rewrite Hb.
    destruct (IH (delete i pending) (tail choices) w1)
      as (bs & w2 & Hf & Hp & Hd2).
    { rewrite length_delete by eauto. lia. }
    { intros a' w' Hin. apply Hbody. by eapply list_elem_of_delete_inv. }
    rewrite Hf. exists (f a :: bs), w2. split; [reflexivity|]. split.
    + rewrite Hp. rewrite (delete_Permutation pending i a Ha) at 2. done.
    + by eapply sameDisk_trans.
Qed.

Lemma fanOut_panics (n : nat) :
  forall (pending : list A) choices w p,
    n = length pending ->
    (forall a w, a ∈ pending ->
       (exists b w', body a w = Ok b w') \/ body a w = Panic p w) ->
    (exists a, a ∈ pending /\ forall w, body a w = Panic p w) ->
    exists w', fanOut body n choices pending w = Panic p w'.
Proof.
  induction n as [|n IH]; intros pending choices w p Hn Hbody (a0 & Hin0 & Hp0).
  - destruct pending; [|done]. by apply elem_of_nil in Hin0.
  - cbn [fanOut].
    set (i := (hd 0%nat choices mod length pending)%nat).
    assert (i < length pending)%nat as Hi.
    { apply Nat.mod_upper_bound. lia. }
    destruct (lookup_lt_is_Some_2 pending i Hi) as [a Ha].
    rewrite Ha. unfold bind.
    destruct (Hbody a w) as [(b & w1 & Hb)|Hb].
    { by eapply list_elem_of_lookup_2. }
    2:{ rewrite Hb. by eexists. }
    rewrite Hb.
    destruct (IH (delete i pending) (tail choices) w1 p) as (w2 & Hf).
    { rewrite length_delete by eauto. lia. }
    { intros a' w' Hin. apply Hbody. by eapply list_elem_of_delete_inv. }
    { exists a0. split; [|done].
      assert (a0 ∈ a :: delete i pending) as Hin1.
      { by rewrite <- (delete_Permutation pending i a Ha). }
      apply elem_of_cons in Hin1 as [Heq|Hin1]; [|done].
      subst a0. rewrite Hp0 in Hb. done. }
    rewrite Hf. by eexists.
Qed.

End FanOut.

(** ** Sorting and slices *)

Lemma sort_Strings_sorted l : Sorted String.le (sort_Strings l).
Proof. apply (Sorted_merge_sort String.le); apply _. Qed.

Lemma sort_Strings_Permutation l : sort_Strings l ≡ₚ l.
Proof. apply merge_sort_Permutation. Qed.

Lemma sort_Strings_unique l1 l2 :
  Sorted String.le l1 -> l1 ≡ₚ l2 -> l1 = sort_Strings l2.
Proof.
  intros Hs Hp. apply (Sorted_unique String.le); [done | apply sort_Strings_sorted |].
  by rewrite sort_Strings_Permutation.
Qed.

Lemma sort_Strings_proper l1 l2 : l1 ≡ₚ l2 -> sort_Strings l1 = sort_Strings l2.
Proof.
  intros Hp. apply sort_Strings_unique; [apply sort_Strings_sorted|].
  by rewrite sort_Strings_Permutation.
Qed.

Lemma appended_spec {A} (l : list A) :
  appended l = match l with [] => nil_slice | _ => mk_slice l end.
Proof.
  unfold appended.
  assert (forall s, foldl append s l
                    = match l with [] => s | _ => mk_slice (elems s ++ l) end) as H.
  { induction l as [|x l IH]; intros s; [done|]. simpl. rewrite IH.
    destruct l; simpl; [done|]. unfold append. simpl. by rewrite <- !app_assoc. }
  rewrite H. by destruct l.
Qed.

Lemma elems_appended {A} (l : list A) : elems (appended l) = l.
Proof. rewrite appended_spec. by destruct l. Qed.

Lemma sortSlice_appended l : sortSlice (appended l) = appended (sort_Strings l).
Proof.
  rewrite !appended_spec. destruct l as [|x l]; [done|]. simpl.
  destruct (sort_Strings (x :: l)) eqn:E; [|done].
  pose proof (sort_Strings_Permutation (x :: l)) as Hp. rewrite E in Hp.
  by apply Permutation_nil_cons in Hp.
Qed.

(** ** The reconciler *)

Section Reconciler.
Context (env : Env) (scheme : string) (timeout portOffset : Z).

Lemma omap_verdict (l : list string) :
  omap (fun e => if ready env scheme timeout portOffset e then Some e else None) l
  = filter (fun e => ready env scheme timeout portOffset e = true) l.
Proof.
  induction l as [|e l IH]; [done|]. csimpl. rewrite filter_cons, IH.
  destruct (ready env scheme timeout portOffset e) eqn:E.
  - by rewrite decide_True.
  - by rewrite decide_False.
Qed.

Lemma collectEndpoints_result verbose choices hashring w :
  Forall (fun e => hasSeparator e = true) (elems (Endpoints hashring)) ->
  exists queue w',
    collectEndpoints env scheme timeout portOffset verbose choices hashring w
    = Ok (appended queue) w'
    /\ queue ≡ₚ filter (fun e => ready env scheme timeout portOffset e = true)
                (elems (Endpoints hashring))
    /\ sameDisk w w'.
Proof.
  intros Hwf. unfold collectEndpoints, goAll, bind.
  destruct (fanOut_results
              (fun endpoint =>
                 healthyEndpoint env scheme endpoint timeout portOffset verbose)
              (fun e => if ready env scheme timeout portOffset e then Some e
                        else None)
              (length (elems (Endpoints hashring)))
              (elems (Endpoints hashring)) choices w eq_refl)
    as (sent & w' & Hf & Hp & Hd).
  { intros e w0 Hin. apply healthyEndpoint_ready.
    by eapply (proj1 (Forall_forall _ _) Hwf). }
  rewrite Hf. exists (omap id sent), w'. split; [reflexivity|]. split; [|done].
  rewrite Hp. rewrite <- omap_verdict.
  clear. induction (elems (Endpoints hashring)) as [|e l IH]; [done|].
  csimpl. destruct (ready _ _ _ _ e); csimpl; by rewrite IH.
Qed.

Lemma readyMembers_Permutation h1 h2 :
  elems (Endpoints h1) ≡ₚ elems (Endpoints h2) ->
  readyMembers env scheme timeout portOffset h1
  = readyMembers env scheme timeout portOffset h2.
Proof.
  intros Hp. unfold readyMembers. apply sort_Strings_proper. by rewrite Hp.
Qed.

Lemma reconciledEndpoints_result verbose choices hashring w :
  Forall (fun e => hasSeparator e = true) (elems (Endpoints hashring)) ->
  exists w',
    reconciledEndpoints env scheme timeout portOffset verbose choices hashring w
    = Ok (appended (readyMembers env scheme timeout portOffset hashring)) w'
    /\ sameDisk w w'.
Proof.
  intros Hwf. unfold reconciledEndpoints, bind.
  destruct (collectEndpoints_result verbose choices hashring w Hwf)
    as (queue & w' & -> & Hp & Hd).
  exists w'. split; [|done]. unfold ret. f_equal.
  rewrite sortSlice_appended. f_equal. unfold readyMembers.
  by apply sort_Strings_proper.
Qed.

End Reconciler.

(** C1. For every hashring definition whose member addresses have the
    [host:port] separator, the member list the reconciler assigns is the
    lexicographically sorted list of the addresses whose probes returned
    ready, whatever the order in which the probes finish ([choices]), and
    it is the same list for every reordering of the input members. *)
Theorem reconciled_members_sorted_ready
    (env : Env) (scheme : string) (timeout portOffset : Z) (verbose : bool)
    (choices : list nat) (hashring : HashringConfig) (w : World) :
  Forall (fun e => hasSeparator e = true) (elems (Endpoints hashring)) ->
  let members := readyMembers env scheme timeout portOffset hashring in
  (exists w',
     reconciledEndpoints env scheme timeout portOffset verbose choices
       hashring w = Ok (appended members) w')
  /\ elems (appended members) = members
  /\ Sorted String.le members
  /\ members ≡ₚ filter (fun e => ready env scheme timeout portOffset e = true)
                  (elems (Endpoints hashring))
  /\ (forall e, e ∈ members <->
                e ∈ elems (Endpoints hashring)
                /\ ready env scheme timeout portOffset e = true)
  /\ forall choices' hashring' w2,
       elems (Endpoints hashring') ≡ₚ elems (Endpoints hashring) ->
       exists w2',
         reconciledEndpoints env scheme timeout portOffset verbose choices'
           hashring' w2 = Ok (appended members) w2'.
Proof.
  intros Hwf members. split_and!.
  - destruct (reconciledEndpoints_result env scheme timeout portOffset verbose
                choices hashring w Hwf) as (w' & H & _). by exists w'.
  - apply elems_appended.
  - apply sort_Strings_sorted.
  - apply sort_Strings_Permutation.
  - intros e. unfold members, readyMembers.
    rewrite sort_Strings_Permutation, list_elem_of_filter. tauto.
  - intros choices' hashring' w2 Hp.
    destruct (reconciledEndpoints_result env scheme timeout portOffset verbose
                choices' hashring' w2) as (w2' & H & _).
    { by rewrite Hp. }
    exists w2'. rewrite H. do 2 f_equal.
    by apply readyMembers_Permutation.
Qed.

(** ** The loop over the definitions *)

Local Open Scope list_scope.

Section ReconcileLoop.
Context (env : Env) (scheme : string) (timeout portOffset : Z) (verbose : bool)
        (probes : nat -> list nat).

Lemma rangeHashrings_result (todo : list HashringConfig) :
  forall (visited : list HashringConfig) (w : World),
    Forall (fun h => Forall (fun e => hasSeparator e = true)
                       (elems (Endpoints h))) todo ->
    exists w',
      rangeHashrings env scheme timeout portOffset verbose probes
        (seq (length visited) (length todo)) (visited ++ todo) w
      = Ok (visited
            ++ (reconciledHashring env scheme timeout portOffset <$> todo)) w'
      /\ sameDisk w w'.
Proof.
  induction todo as [|h todo IH]; intros visited w Hwf.
  - exists w. simpl. rewrite app_nil_r. auto using sameDisk_refl.
  - apply Forall_cons in Hwf as [Hh Hwf].
    cbn [length seq rangeHashrings]. unfold bind at 1. unfold index at 1.
    rewrite list_lookup_middle by done. unfold bind at 1.
    destruct (reconciledEndpoints_result env scheme timeout portOffset verbose
                (probes (length visited)) h w Hh) as (w1 & -> & Hd1).
    replace (<[length visited:=_]> (visited ++ h :: todo))
      with ((visited ++ [reconciledHashring env scheme timeout portOffset h])
            ++ todo).
    2:{ replace (length visited) with (length visited + 0)%nat at 1 by lia.
        rewrite insert_app_r. simpl. by rewrite <- app_assoc. }
    replace (S (length visited))
      with (length (visited ++ [reconciledHashring env scheme timeout portOffset h])).
    2:{ rewrite length_app. simpl. lia. }
    destruct (IH (visited ++ [reconciledHashring env scheme timeout portOffset h])
                w1 Hwf) as (w2 & -> & Hd2).
    exists w2. split; [|by eapply sameDisk_trans].
    f_equal. rewrite <- app_assoc. reflexivity.
Qed.

Lemma reconcile_result (hashrings : slice HashringConfig) (w : World) :
  wellFormed hashrings ->
  exists w',
    reconcile env scheme timeout portOffset verbose probes hashrings w
    = Ok (reconciled env scheme timeout portOffset hashrings) w'
    /\ sameDisk w w'.
Proof.
  intros Hwf. destruct hashrings as [|l]; simpl.
  - exists w. auto using sameDisk_refl.
  - unfold bind.
    destruct (rangeHashrings_result l [] w Hwf) as (w' & H & Hd).
    simpl in H. rewrite H. by exists w'.
Qed.

End ReconcileLoop.

(** C6. Reconciliation re-derives only the member lists: the reconciled
    sequence has the hashring identifiers and the tenant labels of the
    source definitions, one definition per source definition and in the
    same order, and a nil sequence stays nil. *)
Theorem reconcile_preserves_identity_and_order
    (env : Env) (scheme : string) (timeout portOffset : Z) (verbose : bool)
    (probes : nat -> list nat) (hashrings : slice HashringConfig) (w : World) :
  wellFormed hashrings ->
  exists hashrings' w',
    reconcile env scheme timeout portOffset verbose probes hashrings w
    = Ok hashrings' w'
    /\ Hashring <$> elems hashrings' = Hashring <$> elems hashrings
    /\ Tenants <$> elems hashrings' = Tenants <$> elems hashrings
    /\ length (elems hashrings') = length (elems hashrings)
    /\ (hashrings' = nil_slice <-> hashrings = nil_slice)
    /\ forall i h,
         elems hashrings !! i = Some h ->
         elems hashrings' !! i
         = Some (mkHashringConfig (Hashring h) (Tenants h)
                   (appended (readyMembers env scheme timeout portOffset h))).
Proof.
  intros Hwf.
  destruct (reconcile_result env scheme timeout portOffset verbose probes
              hashrings w Hwf) as (w' & H & _).
  exists (reconciled env scheme timeout portOffset hashrings), w'.
  split; [done|]. destruct hashrings as [|l]; simpl.
  { repeat split; try done. }
  rewrite <- !list_fmap_compose, length_fmap. repeat split; try done.
  intros i h Hi. rewrite list_lookup_fmap, Hi. reflexivity.
Qed.

(** ** The derived file name *)

Lemma generatedName_result (file : string) (w : World) :
  generatedName file w = Ok (derivedName file) w.
Proof.
  unfold generatedName, bind, index, derivedName, stem.
  destruct (strings_facts.Split_head file ".json") as [rest ->]; [done|].
  reflexivity.
Qed.

Lemma derivedName_suffix (file : string) :
  strings.HasSuffix (derivedName file) "_generated.json" = true.
Proof. apply strings_facts.HasSuffix_true. by eexists. Qed.

Lemma stem_prefix (file : string) :
  stem file = file
  \/ exists rest, file = stem file +:+ ".json" +:+ rest.
Proof.
  unfold stem. destruct (strings.Index file ".json") as [m|] eqn:E; [|by left].
  right. apply strings_facts.Index_Some in E as (Hp & _ & _).
  apply strings_facts.HasPrefix_true in Hp as [rest Hr]. exists rest.
  rewrite <- Hr. by rewrite strings_facts.take_drop.
Qed.

Lemma app_inv_head_string (p s t : string) : p +:+ s = p +:+ t -> s = t.
Proof.
  induction p as [|c p IH]; [done|].
  rewrite !strings_facts.app_cons. intros [= H]. by apply IH.
Qed.

Lemma derivedName_fresh (file : string) : derivedName file <> file.
Proof.
  unfold derivedName. destruct (stem_prefix file) as [Heq|[rest Heq]].
  - rewrite Heq. intros H.
    apply (f_equal String.length) in H.
    rewrite strings_facts.length_app in H. simpl in H. lia.
  - intros H. rewrite Heq in H at 2.
    apply app_inv_head_string in H. discriminate H.
Qed.

(** ** Saving the derived file *)

Section Materializer.
Context (env : Env).

Lemma save_owner_unresolved file owner content w :
  user_lookup env owner = None ->
  saveHashringFile env file owner content w
  = Ok tt (add_log (ErrorLogger, CannotSaveFileLookup file) w).
Proof. intros H. unfold saveHashringFile. by rewrite H. Qed.

Lemma save_open_fails file owner content w g :
  user_lookup env owner = Some g ->
  fs_write env file = OpenFails ->
  saveHashringFile env file owner content w
  = Ok tt (add_log (ErrorLogger, CannotSaveFileWrite file) (add_write file w)).
Proof.
  intros Hu Hw. unfold saveHashringFile, bind, ioutil_WriteFile.
  by rewrite Hu, Hw.
Qed.

Lemma save_written file owner content w g :
  user_lookup env owner = Some g ->
  fs_write env file = Written ->
  exists w' o,
    saveHashringFile env file owner content w = Ok tt w'
    /\ fs w' = <[file := mkFile content (clock w) o]> (fs w)
    /\ clock w' = S (clock w)
    /\ writes w' = writes w ++ [file]
    /\ requests w' = requests w
    /\ (fs_chown_ok env file = true ->
        logs w' = logs w ++ [(InfoLogger, FileSaved file)]).
Proof.
  intros Hu Hw. unfold saveHashringFile, bind, ioutil_WriteFile, os_Chown.
  rewrite Hu, Hw. cbn [negb fs set_clock set_fs add_write].
  rewrite lookup_insert_eq.
  destruct (fs_chown_ok env file); cbn [negb].
  - eexists _, _. split; [reflexivity|]. cbn.
    rewrite insert_insert_eq. repeat split; done.
  - eexists _, _. split; [reflexivity|]. cbn. repeat split; done.
Qed.

Lemma materialize_absent file owner verbose content w :
  fs w !! derivedName file = None ->
  materialize env file owner verbose content w
  = saveHashringFile env (derivedName file) owner content w.
Proof.
  intros Hn. unfold materialize, bind. rewrite generatedName_result.
  unfold os_Stat. rewrite Hn.
  rewrite bool_decide_eq_false_2; [done|]. by intros [? ?].
Qed.

Lemma materialize_present file owner verbose content w existing :
  fs w !! derivedName file = Some existing ->
  (fs_readable env (derivedName file) = true ->
   sha256_Sum256 env (data existing) = sha256_Sum256 env content) ->
  exists w',
    materialize env file owner verbose content w = Ok tt w'
    /\ sameDisk w w' /\ requests w' = requests w.
Proof.
  intros He Hsha. unfold materialize, bind. rewrite generatedName_result.
  unfold os_Stat. rewrite He. rewrite bool_decide_eq_true_2 by eauto.
  unfold ioutil_ReadFile. rewrite He.
  destruct (fs_readable env (derivedName file)).
  - rewrite Hsha by done. rewrite String.eqb_refl.
    destruct verbose; eexists; (split; [reflexivity|]); split;
      auto using sameDisk_refl, sameDisk_add_log.
  - eexists; split; [reflexivity|]. split; auto using sameDisk_add_log.
Qed.

Lemma checkHashringFile_decoded file owner scheme timeout portOffset verbose
    probes w src hashrings :
  fs w !! file = Some src ->
  fs_readable env file = true ->
  json_unmarshal env (data src) = Some hashrings ->
  wellFormed hashrings ->
  exists w1,
    sameDisk w w1
    /\ checkHashringFile env file owner scheme timeout portOffset verbose
         probes w
       = materialize env file owner verbose
           (json.Marshal (json_quote env)
              (reconciled env scheme timeout portOffset hashrings)) w1.
Proof.
  intros Hs Hr Hd Hwf. unfold checkHashringFile, bind at 1, ioutil_ReadFile.
  rewrite Hs, Hr, Hd. unfold bind.
  destruct (reconcile_result env scheme timeout portOffset verbose probes
              hashrings w Hwf) as (w1 & -> & Hsd).
  by exists w1.
Qed.

End Materializer.

(** C2. With a readable, well-formed source: (i) when the derived file on
    disk has the digest of the newly serialized configuration, the pass
    makes no [WriteFile] call and leaves the disk and its clock as they
    were; (ii) starting without a derived file, with a resolvable owner and
    a writable target, the first pass writes the derived file exactly once
    and a second pass under the same readiness outcomes (any probe order)
    writes nothing and leaves every file, modification times included,
    unchanged. *)
Theorem materializer_idempotent
    (env : Env) (file owner scheme : string) (timeout portOffset : Z)
    (verbose : bool) (probes1 probes2 : nat -> list nat) (w0 : World)
    (src : File) (hashrings : slice HashringConfig) :
  fs w0 !! file = Some src ->
  fs_readable env file = true ->
  json_unmarshal env (data src) = Some hashrings ->
  wellFormed hashrings ->
  let content :=
    json.Marshal (json_quote env)
      (reconciled env scheme timeout portOffset hashrings) in
  let pass := checkHashringFile env file owner scheme timeout portOffset
                verbose in
  (forall existing,
      fs w0 !! derivedName file = Some existing ->
      sha256_Sum256 env (data existing) = sha256_Sum256 env content ->
      exists w1,
        pass probes1 w0 = Ok tt w1
        /\ writes w1 = writes w0 /\ fs w1 = fs w0 /\ clock w1 = clock w0)
  /\ (fs w0 !! derivedName file = None ->
      is_Some (user_lookup env owner) ->
      fs_write env (derivedName file) = Written ->
      exists w1 w2 f,
        pass probes1 w0 = Ok tt w1
        /\ writes w1 = writes w0 ++ [derivedName file]
        /\ fs w1 !! derivedName file = Some f
        /\ data f = content /\ mtime f = clock w0
        /\ pass probes2 w1 = Ok tt w2
        /\ writes w2 = writes w1 /\ fs w2 = fs w1).
Proof.
  intros Hsrc Hread Hdec Hwf content pass. split.
  - intros existing Hex Hsha.
    destruct (checkHashringFile_decoded env file owner scheme timeout
                portOffset verbose probes1 w0 src hashrings Hsrc Hread Hdec Hwf)
      as (w' & (Hfs & Hck & Hwr) & Heq).
    destruct (materialize_present env file owner verbose content w' existing)
      as (w1 & Hm & (Hfs1 & Hck1 & Hwr1) & _).
    { by rewrite Hfs. }
    { done. }
    exists w1. unfold pass. rewrite Heq. fold content. rewrite Hm.
    repeat split; congruence.
  - intros Habs [g Hg] Hw.
    destruct (checkHashringFile_decoded env file owner scheme timeout
                portOffset verbose probes1 w0 src hashrings Hsrc Hread Hdec Hwf)
      as (w' & (Hfs & Hck & Hwr) & Heq).
    destruct (save_written env (derivedName file) owner content w' g Hg Hw)
      as (w1 & o & Hsave & Hfs1 & Hck1 & Hwr1 & _ & _).
    assert (pass probes1 w0 = Ok tt w1) as Hp1.
    { unfold pass. rewrite Heq. fold content.
      rewrite materialize_absent by (by rewrite Hfs). done. }
    assert (fs w1 !! derivedName file
            = Some (mkFile content (clock w') o)) as Hgen.
    { rewrite Hfs1. apply lookup_insert_eq. }
    assert (fs w1 !! file = Some src) as Hsrc1.
    { rewrite Hfs1, lookup_insert_ne by apply derivedName_fresh.
      by rewrite Hfs. }
    destruct (checkHashringFile_decoded env file owner scheme timeout
                portOffset verbose probes2 w1 src hashrings Hsrc1 Hread Hdec Hwf)
      as (w1' & (Hfs' & Hck' & Hwr') & Heq2).
    destruct (materialize_present env file owner verbose content w1'
                (mkFile content (clock w') o))
      as (w2 & Hm & (Hfs2 & Hck2 & Hwr2) & _).
    { by rewrite Hfs'. }
    { done. }
    exists w1, w2, (mkFile content (clock w') o).
    split; [done|]. split; [congruence|]. split; [done|].
    split; [done|]. split; [simpl; congruence|].
    split; [unfold pass; rewrite Heq2; fold content; by rewrite Hm|].
    split; congruence.
Qed.

(** ** Computations that leave the files alone *)

Section KeepsFs.
Context (env : Env).

Lemma keepsFs_ret {A} (a : A) : keepsFs (ret a).
Proof. by intros w. Qed.

Lemma keepsFs_bind {A B} (m : Go A) (k : A -> Go B) :
  keepsFs m -> (forall a, keepsFs (k a)) -> keepsFs (bind m k).
Proof.
  intros Hm Hk w. unfold bind. specialize (Hm w).
  destruct (m w) as [a w1|p w1]; simpl in *; [|done].
  by rewrite Hk.
Qed.

Lemma keepsFs_Printf l m : keepsFs (Printf l m).
Proof. by intros w. Qed.

Lemma keepsFs_index {A} (l : list A) i : keepsFs (index l i).
Proof. intros w. unfold index. by destruct (l !! i). Qed.

Lemma keepsFs_if {A} (b : bool) (m1 m2 : Go A) :
  keepsFs m1 -> keepsFs m2 -> keepsFs (if b then m1 else m2).
Proof. by destruct b. Qed.

Lemma keepsFs_ReadFile path : keepsFs (ioutil_ReadFile env path).
Proof.
  intros w. unfold ioutil_ReadFile.
  destruct (fs w !! path); [destruct (fs_readable env path)|]; done.
Qed.

Lemma keepsFs_probe url endpoint timeout verbose :
  keepsFs (probe env url endpoint timeout verbose).
Proof.
  intros w. destruct (probe_result env url endpoint timeout verbose w)
    as (w' & -> & Hfs & _). done.
Qed.

Lemma keepsFs_healthyEndpoint scheme endpoint timeout portOffset verbose :
  keepsFs (healthyEndpoint env scheme endpoint timeout portOffset verbose).
Proof.
  unfold healthyEndpoint.
  apply keepsFs_bind; [apply keepsFs_index|]; intros host.
  apply keepsFs_bind; [apply keepsFs_index|]; intros portText.
  apply keepsFs_probe.
Qed.

Lemma keepsFs_fanOut {A B} (body : A -> Go B) n choices pending :
  (forall a, keepsFs (body a)) -> keepsFs (fanOut body n choices pending).
Proof.
  intros Hbody. revert choices pending.
  induction n as [|n IH]; intros choices pending; cbn [fanOut].
  - apply keepsFs_ret.
  - destruct (pending !! _); [|apply keepsFs_ret].
    apply keepsFs_bind; [done|]; intros b.
    apply keepsFs_bind; [apply IH|]; intros bs. apply keepsFs_ret.
Qed.

Lemma keepsFs_reconcile scheme timeout portOffset verbose probes hashrings :
  keepsFs (reconcile env scheme timeout portOffset verbose probes hashrings).
Proof.
  destruct hashrings as [|l]; [apply keepsFs_ret|]. simpl.
  apply keepsFs_bind; [|intros; apply keepsFs_ret].
  generalize (seq 0 (length l)). intros positions. revert l.
  induction positions as [|pos positions IH]; intros l; cbn [rangeHashrings].
  - apply keepsFs_ret.
  - apply keepsFs_bind; [apply keepsFs_index|]; intros h.
    apply keepsFs_bind; [|intros; apply IH].
    unfold reconciledEndpoints, collectEndpoints, goAll.
    apply keepsFs_bind; [|intros; apply keepsFs_ret].
    apply keepsFs_bind; [|intros; apply keepsFs_ret].
    apply keepsFs_fanOut. intros e. apply keepsFs_healthyEndpoint.
Qed.

Lemma save_fails file owner content w :
  user_lookup env owner = None \/ fs_write env file = OpenFails ->
  exists w' m,
    saveHashringFile env file owner content w = Ok tt w'
    /\ fs w' = fs w /\ clock w' = clock w
    /\ logs w' = logs w ++ [(ErrorLogger, m)].
Proof.
  destruct (user_lookup env owner) as [g|] eqn:Hu.
  - intros [?|Hw]; [done|].
    rewrite (save_open_fails env file owner content w g Hu Hw).
    by eexists _, _.
  - intros _. rewrite (save_owner_unresolved env file owner content w Hu).
    by eexists _, _.
Qed.

Lemma keepsFs_materialize_failing file owner verbose content :
  user_lookup env owner = None \/ fs_write env (derivedName file) = OpenFails ->
  keepsFs (materialize env file owner verbose content).
Proof.
  intros Hfail.
  assert (keepsFs (saveHashringFile env (derivedName file) owner content)) as Hs.
  { intros w. destruct (save_fails (derivedName file) owner content w Hfail)
      as (w' & m & -> & Hfs & _). done. }
  intros w. unfold materialize, bind. rewrite generatedName_result.
  unfold os_Stat. destruct (bool_decide _); [|apply Hs].
  pose proof (keepsFs_ReadFile (derivedName file) w) as Hr.
  destruct (ioutil_ReadFile env (derivedName file) w) as [[body|] w1|p w1];
    simpl in Hr; [| by simpl | by simpl].
  destruct (String.eqb _ _).
  - destruct verbose; simpl; done.
  - by rewrite Hs.
Qed.

Lemma save_short_write file owner content w g n :
  user_lookup env owner = Some g ->
  fs_write env file = ShortWrite n ->
  saveHashringFile env file owner content w
  = Ok tt (add_log (ErrorLogger, CannotSaveFileWrite file)
             (set_clock (S (clock w))
                (set_fs (<[file := stored env file (strings.take n content) w]>
                           (fs w))
                   (add_write file w)))).
Proof.
  intros Hu Hw. unfold saveHashringFile, bind, ioutil_WriteFile.
  by rewrite Hu, Hw.
Qed.

(** Whatever goes wrong in [saveHashringFile], it logs one error, returns,
    and has changed no other path than its target. *)
Lemma save_fails_contained file owner content w :
  user_lookup env owner = None \/ fs_write env file <> Written ->
  exists w' m,
    saveHashringFile env file owner content w = Ok tt w'
    /\ logs w' = logs w ++ [(ErrorLogger, m)]
    /\ (forall p, p <> file -> fs w' !! p = fs w !! p).
Proof.
  destruct (user_lookup env owner) as [g|] eqn:Hu.
  - intros [?|Hw]; [done|].
    destruct (fs_write env file) as [| |n] eqn:Hf; [done| |].
    + rewrite (save_open_fails env file owner content w g Hu Hf).
      by eexists _, _.
    + rewrite (save_short_write file owner content w g n Hu Hf).
      eexists _, _. split_and!; [done..|].
      intros p Hp. cbn. by rewrite lookup_insert_ne.
  - intros _. rewrite (save_owner_unresolved env file owner content w Hu).
    by eexists _, _.
Qed.

End KeepsFs.

(** C4 (as amended). Whatever makes the save fail (the owner cannot be
    resolved, the derived path cannot be opened for writing, or the write
    fails after the open), [saveHashringFile] returns normally after logging
    one error and has changed no other file.  When the owner cannot be
    resolved or the open fails, the whole pass over that source file leaves
    every file on disk, the previous derived file included, exactly as it
    was.  When the write fails after the open, the derived file holds the
    bytes stored before the error and nothing of its previous content. *)
Theorem failed_save_keeps_file_unless_opened
    (env : Env) (file owner scheme : string) (timeout portOffset : Z)
    (verbose : bool) (probes : nat -> list nat) (content : string)
    (w : World) :
  user_lookup env owner = None \/ fs_write env (derivedName file) <> Written ->
  (exists w' m,
      saveHashringFile env (derivedName file) owner content w = Ok tt w'
      /\ logs w' = logs w ++ [(ErrorLogger, m)]
      /\ (forall p, p <> derivedName file -> fs w' !! p = fs w !! p)
      /\ (user_lookup env owner = None
          \/ fs_write env (derivedName file) = OpenFails ->
          fs w' = fs w /\ clock w' = clock w)
      /\ (forall n,
            user_lookup env owner <> None ->
            fs_write env (derivedName file) = ShortWrite n ->
            (data <$> fs w' !! derivedName file)
            = Some (strings.take n content)))
  /\ (user_lookup env owner = None
      \/ fs_write env (derivedName file) = OpenFails ->
      fs (world_of (checkHashringFile env file owner scheme timeout portOffset
                      verbose probes w)) = fs w).
Proof.
  intros Hfail. split.
  - destruct (save_fails_contained env (derivedName file) owner content w Hfail)
      as (w' & m & Hsave & Hlog & Hother).
    exists w', m. split_and!; [done..| |].
    + intros Hkeep.
      destruct (save_fails env (derivedName file) owner content w Hkeep)
        as (w1 & m1 & Hsave1 & Hfs & Hclock & _).
      rewrite Hsave in Hsave1. by injection Hsave1 as <-.
    + intros n Hu Hw.
      destruct (user_lookup env owner) as [g|] eqn:Hg; [|done].
      rewrite (save_short_write env (derivedName file) owner content w g n
                 Hg Hw) in Hsave.
      injection Hsave as <-. cbn. by rewrite lookup_insert_eq.
  - intros Hkeep. revert w.
    change (keepsFs (checkHashringFile env file owner scheme timeout
                       portOffset verbose probes)).
    unfold checkHashringFile.
    apply keepsFs_bind; [apply keepsFs_ReadFile|]. intros [body|].
    2:{ apply keepsFs_Printf. }
    destruct (json_unmarshal env body) as [hashrings|]; [|apply keepsFs_Printf].
    apply keepsFs_bind; [apply keepsFs_reconcile|]. intros hs.
    by apply keepsFs_materialize_failing.
Qed.

(** ** Total outage *)

Lemma readyMembers_none env scheme timeout portOffset h :
  (forall e, e ∈ elems (Endpoints h) ->
             ready env scheme timeout portOffset e = false) ->
  readyMembers env scheme timeout portOffset h = [].
Proof.
  intros Hdown. unfold readyMembers.
  replace (filter _ (elems (Endpoints h))) with (@nil string); [done|].
  symmetry. induction (elems (Endpoints h)) as [|e l IH]; [done|].
  rewrite filter_cons, decide_False.
  - apply IH. intros e' He'. apply Hdown. by right.
  - rewrite Hdown; [done|]. by left.
Qed.

Lemma reconciled_all_down env scheme timeout portOffset hashrings :
  (forall h e, h ∈ elems hashrings -> e ∈ elems (Endpoints h) ->
               ready env scheme timeout portOffset e = false) ->
  reconciled env scheme timeout portOffset hashrings = withoutMembers hashrings.
Proof.
  intros Hdown. destruct hashrings as [|l]; [done|]. simpl. f_equal.
  apply list_fmap_ext. intros i h Hi. unfold reconciledHashring.
  rewrite readyMembers_none; [done|].
  intros e He. eapply Hdown; [|done]. simpl. by eapply list_elem_of_lookup_2.
Qed.

(** C7. When every member of every definition fails its probe, each
    definition reconciles to an empty member list, and the pass serializes
    that configuration, writes it to the derived file and logs the save: it
    is not treated as an error. *)
Theorem total_outage_is_written
    (env : Env) (file owner scheme : string) (timeout portOffset : Z)
    (verbose : bool) (probes : nat -> list nat) (w0 : World)
    (src : File) (hashrings : slice HashringConfig) :
  fs w0 !! file = Some src ->
  fs_readable env file = true ->
  json_unmarshal env (data src) = Some hashrings ->
  wellFormed hashrings ->
  (forall h e, h ∈ elems hashrings -> e ∈ elems (Endpoints h) ->
               ready env scheme timeout portOffset e = false) ->
  fs w0 !! derivedName file = None ->
  is_Some (user_lookup env owner) ->
  fs_write env (derivedName file) = Written ->
  fs_chown_ok env (derivedName file) = true ->
  exists w1 f,
    checkHashringFile env file owner scheme timeout portOffset verbose
      probes w0 = Ok tt w1
    /\ reconciled env scheme timeout portOffset hashrings
       = withoutMembers hashrings
    /\ Forall (fun h => len (Endpoints h) = 0%nat)
         (elems (withoutMembers hashrings))
    /\ fs w1 !! derivedName file = Some f
    /\ data f = json.Marshal (json_quote env) (withoutMembers hashrings)
    /\ last (logs w1) = Some (InfoLogger, FileSaved (derivedName file)).
Proof.
  intros Hsrc Hread Hdec Hwf Hdown Habs [g Hg] Hw Hch.
  destruct (checkHashringFile_decoded env file owner scheme timeout
              portOffset verbose probes w0 src hashrings Hsrc Hread Hdec Hwf)
    as (w' & (Hfs & Hck & Hwr) & ->).
  rewrite materialize_absent by (by rewrite Hfs).
  rewrite (reconciled_all_down _ _ _ _ _ Hdown).
  destruct (save_written env (derivedName file) owner
              (json.Marshal (json_quote env) (withoutMembers hashrings))
              w' g Hg Hw)
    as (w1 & o & -> & Hfs1 & _ & _ & _ & Hlog).
  eexists w1, _. split; [done|]. split; [done|]. split.
  { destruct hashrings as [|l]; simpl; [constructor|].
    apply Forall_fmap, Forall_forall. by intros. }
  split; [rewrite Hfs1; apply lookup_insert_eq|]. split; [done|].
  rewrite Hlog by done. apply last_snoc.
Qed.

(** ** The prober, in detail *)


(** ** Address parsing *)

Lemma Atoi_syntax_zero (s : string) :
  snd (strconv.Atoi s) = Some strconv.ErrSyntax -> fst (strconv.Atoi s) = 0.
Proof.
  unfold strconv.Atoi, strconv.atoiFast, strconv.ParseInt.
  repeat case_match; simpl; try done.
Qed.

Lemma atoiLoop_not_digits (s : string) :
  allDigits s = false -> forall n, strconv.atoiLoop n s = None.
Proof.
  induction s as [|c s IH]; [done|]. simpl. intros H n.
  destruct (strconv.isDigit c); simpl in *; [by apply IH | done].
Qed.

Lemma Atoi_not_numeral_short (s : string) :
  isNumeral s = false -> (String.length s < 19)%nat ->
  strconv.Atoi s = (0, Some strconv.ErrSyntax).
Proof.
  intros Hn Hlen. unfold strconv.Atoi.
  destruct s as [|c s]; [done|].
  replace ((0 <? String.length (String c s))%nat
           && (String.length (String c s) <? 19)%nat) with true.
  2:{ symmetry. apply andb_true_iff. split; [done|]. by apply Nat.ltb_lt. }
  unfold strconv.atoiFast. unfold isNumeral in Hn.
  destruct (Ascii.eqb c "-") eqn:Hm; destruct (Ascii.eqb c "+") eqn:Hp;
    cbn [orb andb] in *.
  - destruct s; [done|]. simpl in Hn. by rewrite atoiLoop_not_digits.
  - destruct s; [done|]. simpl in Hn. by rewrite atoiLoop_not_digits.
  - destruct s; [done|]. simpl in Hn. by rewrite atoiLoop_not_digits.
  - by rewrite atoiLoop_not_digits.
Qed.

(** C10 (as amended). The prober panics with an index out of range
    exactly on the addresses without a separator.  On the others it never
    panics, and a port text that [Atoi] rejects with a syntax error, which
    covers every text of fewer than 19 bytes that is not a decimal numeral,
    is used as port 0 without any report: the prober behaves as the probe of
    [scheme://host:(0+offset)/-/ready]. *)
Theorem address_parsing_needs_separator
    (env : Env) (scheme endpoint : string) (timeout portOffset : Z)
    (verbose : bool) (w : World) :
  (hasSeparator endpoint = false <->
   healthyEndpoint env scheme endpoint timeout portOffset verbose w
   = Panic (IndexOutOfRange 1 (length (strings.Split endpoint ":"))) w)
  /\ (hasSeparator endpoint = true <->
      exists sent w',
        healthyEndpoint env scheme endpoint timeout portOffset verbose w
        = Ok sent w')
  /\ (forall host portText rest,
         strings.Split endpoint ":" = host :: portText :: rest ->
         (snd (strconv.Atoi portText) = Some strconv.ErrSyntax
          \/ (isNumeral portText = false
              /\ (String.length portText < 19)%nat)) ->
         fst (strconv.Atoi portText) = 0
         /\ healthyEndpoint env scheme endpoint timeout portOffset verbose w
            = probe env
                (scheme +:+ "://" +:+ host +:+ ":"
                 +:+ fmt_d (int_add 0 portOffset) +:+ "/-/ready")
                endpoint timeout verbose w).
Proof.
  assert (hasSeparator endpoint = true ->
          exists sent w',
            healthyEndpoint env scheme endpoint timeout portOffset verbose w
            = Ok sent w') as Hok.
  { intros Hs.
    destruct (healthyEndpoint_ready env scheme endpoint timeout portOffset
                verbose w Hs) as (w' & H & _). by eexists _, _. }
  assert (hasSeparator endpoint = false ->
          healthyEndpoint env scheme endpoint timeout portOffset verbose w
          = Panic (IndexOutOfRange 1 (length (strings.Split endpoint ":"))) w)
    as Hpanic.
  { intros Hs. rewrite (noSeparator_Split _ Hs).
    by apply healthyEndpoint_no_separator. }
  split; [|split].
  - split; [done|]. intros Hp.
    destruct (hasSeparator endpoint) eqn:Hs; [|done].
    destruct (Hok eq_refl) as (sent & w' & H). congruence.
  - split; [done|]. intros (sent & w' & H).
    destruct (hasSeparator endpoint) eqn:Hs; [done|].
    rewrite (Hpanic eq_refl) in H. done.
  - intros host portText rest Hsp Hbad.
    assert (fst (strconv.Atoi portText) = 0) as Hzero.
    { destruct Hbad as [Hsyn|[Hn Hlen]]; [by apply Atoi_syntax_zero|].
      by rewrite Atoi_not_numeral_short. }
    split; [done|].
    rewrite (healthyEndpoint_parsed _ _ _ _ _ _ _ _ _ _ Hsp), Hzero. done.
Qed.

(** One address without a separator is enough: its goroutine panics, and
    with it the process, whatever the order of the probes. *)
Lemma reconciledEndpoints_panics env scheme timeout portOffset verbose choices
    hashring w endpoint :
  endpoint ∈ elems (Endpoints hashring) ->
  hasSeparator endpoint = false ->
  exists w',
    reconciledEndpoints env scheme timeout portOffset verbose choices hashring w
    = Panic (IndexOutOfRange 1 1) w'.
Proof.
  intros Hin Hs. unfold reconciledEndpoints, collectEndpoints, goAll, bind.
  destruct (fanOut_panics
              (fun e => healthyEndpoint env scheme e timeout portOffset verbose)
              (length (elems (Endpoints hashring)))
              (elems (Endpoints hashring)) choices w (IndexOutOfRange 1 1)
              eq_refl) as (w' & ->).
  - intros e w0 _. destruct (hasSeparator e) eqn:He.
    + left. destruct (healthyEndpoint_ready env scheme e timeout portOffset
                        verbose w0 He) as (w1 & H & _). by eexists _, _.
    + right. by apply healthyEndpoint_no_separator.
  - exists endpoint. split; [done|]. intros w0.
    by apply healthyEndpoint_no_separator.
  - by exists w'.
Qed.

(** ** Directory discovery *)

Lemma Walk_selects (visits : list Visit) :
  forall files path,
    path ∈ fst (Walk visits files) ->
    path ∈ files
    \/ exists info,
         VisitOk path info ∈ visits
         /\ IsDir info = false
         /\ strings.HasSuffix path ".json" = true
         /\ strings.HasSuffix path "_generated.json" = false.
Proof.
  induction visits as [|v visits IH]; intros files path; cbn [Walk].
  - by left.
  - destruct v as [p info|p]; cbn [walkFn].
    2:{ by left. }
    destruct (negb (IsDir info)) eqn:Hd; cbn [andb].
    2:{ intros H. destruct (IH _ _ H) as [?|(i & ? & ?)]; [by left|].
        right. exists i. split; [by right | done]. }
    destruct (negb (strings.HasSuffix p "_generated.json")) eqn:Hg; cbn [andb].
    2:{ intros H. destruct (IH _ _ H) as [?|(i & ? & ?)]; [by left|].
        right. exists i. split; [by right | done]. }
    destruct (strings.HasSuffix p ".json") eqn:Hj.
    2:{ intros H. destruct (IH _ _ H) as [?|(i & ? & ?)]; [by left|].
        right. exists i. split; [by right | done]. }
    intros H. destruct (IH _ _ H) as [Hin|(i & ? & ?)].
    + apply elem_of_app in Hin as [?|Hin]; [by left|].
      apply list_elem_of_singleton in Hin as ->. right. exists info.
      apply negb_true_iff in Hd, Hg. split; [by left | done].
    + right. exists i. split; [by right | done].
Qed.

(** C9 (as amended). Directory discovery returns only paths that the walk
    reported as something other than a directory, that end in [.json] and
    that do not end in [_generated.json]; the derived file of a source is
    named by the part of the source path before its first [.json] followed
    by [_generated.json]; so no derived file name is ever among the
    discovered sources. *)
Theorem discovery_never_selects_derived_files
    (env : Env) (directory : string) (w : World) :
  exists files w',
    listHashringFiles env directory w = Ok files w'
    /\ fs w' = fs w
    /\ (forall path,
           path ∈ files ->
           (exists info,
               VisitOk path info ∈ fs_walk env (fs w) directory
               /\ IsDir info = false)
           /\ strings.HasSuffix path ".json" = true
           /\ strings.HasSuffix path "_generated.json" = false)
    /\ (forall file w0,
           generatedName file w0 = Ok (stem file +:+ "_generated.json") w0
           /\ (stem file = file
               \/ exists rest, file = stem file +:+ ".json" +:+ rest)
           /\ forall k, (k < String.length (stem file))%nat ->
                        strings.HasPrefix (strings.drop k file) ".json" = false)
    /\ (forall file, derivedName file ∉ files).
Proof.
  unfold listHashringFiles.
  destruct (Walk (fs_walk env (fs w) directory) []) as [files err] eqn:HW.
  assert (forall path, path ∈ files ->
            (exists info, VisitOk path info ∈ fs_walk env (fs w) directory
                          /\ IsDir info = false)
            /\ strings.HasSuffix path ".json" = true
            /\ strings.HasSuffix path "_generated.json" = false) as Hsel.
  { intros path Hin.
    destruct (Walk_selects (fs_walk env (fs w) directory) [] path)
      as [Hnil|(info & ? & ? & ? & ?)].
    { by rewrite HW. }
    { by apply elem_of_nil in Hnil. }
    split; [by exists info | done]. }
  exists files, (if err then add_log (ErrorLogger, WalkError) w else w).
  split; [by destruct err|]. split; [by destruct err|]. split; [done|]. split.
  - intros file w0. split; [apply generatedName_result|].
    split; [apply stem_prefix|].
    intros k Hk. unfold stem in Hk.
    destruct (strings.Index file ".json") as [m|] eqn:E.
    + apply strings_facts.Index_Some in E as (_ & Hm & Hfirst).
      apply Hfirst. rewrite strings_facts.length_take in Hk. lia.
    + by apply strings_facts.Index_None.
  - intros file Hin. destruct (Hsel _ Hin) as (_ & _ & Hg).
    by rewrite derivedName_suffix in Hg.
Qed.

(** ** Start-up *)

Section IndexPanics.
Context (env : Env).

Lemma indexPanics_ret {A} (a : A) : indexPanics (ret a).
Proof. by intros w p w'. Qed.

Lemma indexPanics_bind {A B} (m : Go A) (k : A -> Go B) :
  indexPanics m -> (forall a, indexPanics (k a)) -> indexPanics (bind m k).
Proof.
  intros Hm Hk w p w'. unfold bind.
  destruct (m w) as [a w1|q w1] eqn:Hmw.
  - apply Hk.
  - intros [= <- <-]. by eapply Hm.
Qed.

Lemma indexPanics_Printf l m : indexPanics (Printf l m).
Proof. by intros w p w'. Qed.

Lemma indexPanics_index {A} (l : list A) i : indexPanics (index l i).
Proof.
  intros w p w'. unfold index. destruct (l !! i); [done|].
  intros [= <- _]. by eexists _, _.
Qed.

Lemma indexPanics_ReadFile path : indexPanics (ioutil_ReadFile env path).
Proof.
  intros w p w'. unfold ioutil_ReadFile.
  destruct (fs w !! path); [destruct (fs_readable env path)|]; done.
Qed.

Lemma indexPanics_healthyEndpoint scheme endpoint timeout portOffset verbose :
  indexPanics (healthyEndpoint env scheme endpoint timeout portOffset verbose).
Proof.
  unfold healthyEndpoint.
  apply indexPanics_bind; [apply indexPanics_index|]; intros host.
  apply indexPanics_bind; [apply indexPanics_index|]; intros portText.
  intros w p w'.
  destruct (probe_result env (readyURL scheme host (fst (strconv.Atoi portText))
                                portOffset) endpoint timeout verbose w)
    as (w1 & -> & _). done.
Qed.

Lemma indexPanics_fanOut {A B} (body : A -> Go B) n choices pending :
  (forall a, indexPanics (body a)) ->
  indexPanics (fanOut body n choices pending).
Proof.
  intros Hbody. revert choices pending.
  induction n as [|n IH]; intros choices pending; cbn [fanOut].
  - apply indexPanics_ret.
  - destruct (pending !! _); [|apply indexPanics_ret].
    apply indexPanics_bind; [done|]; intros b.
    apply indexPanics_bind; [apply IH|]; intros bs. apply indexPanics_ret.
Qed.

Lemma indexPanics_reconcile scheme timeout portOffset verbose probes hashrings :
  indexPanics (reconcile env scheme timeout portOffset verbose probes hashrings).
Proof.
  destruct hashrings as [|l]; [apply indexPanics_ret|]. simpl.
  apply indexPanics_bind; [|intros; apply indexPanics_ret].
  generalize (seq 0 (length l)). intros positions. revert l.
  induction positions as [|pos positions IH]; intros l; cbn [rangeHashrings].
  - apply indexPanics_ret.
  - apply indexPanics_bind; [apply indexPanics_index|]; intros h.
    apply indexPanics_bind; [|intros; apply IH].
    unfold reconciledEndpoints, collectEndpoints, goAll.
    apply indexPanics_bind; [|intros; apply indexPanics_ret].
    apply indexPanics_bind; [|intros; apply indexPanics_ret].
    apply indexPanics_fanOut. intros e. apply indexPanics_healthyEndpoint.
Qed.

Lemma indexPanics_save file owner content :
  indexPanics (saveHashringFile env file owner content).
Proof.
  intros w p w'. unfold saveHashringFile, bind, ioutil_WriteFile, os_Chown,
    Printf.
  destruct (user_lookup env owner); [|done].
  destruct (fs_write env file); cbn; try done.
  rewrite lookup_insert_eq. by destruct (fs_chown_ok env file).
Qed.

Lemma indexPanics_materialize file owner verbose content :
  indexPanics (materialize env file owner verbose content).
Proof.
  unfold materialize.
  apply indexPanics_bind.
  { unfold generatedName.
    apply indexPanics_bind; [apply indexPanics_index|].
    intros; apply indexPanics_ret. }
  intros generatedFile.
  apply indexPanics_bind; [by intros w p w'|]. intros [|].
  - apply indexPanics_bind; [apply indexPanics_ReadFile|]. intros [body|].
    + destruct (String.eqb _ _); [|apply indexPanics_save].
      destruct verbose; [apply indexPanics_Printf | apply indexPanics_ret].
    + apply indexPanics_Printf.
  - apply indexPanics_save.
Qed.

Lemma indexPanics_checkHashringFile file owner scheme timeout portOffset
    verbose probes :
  indexPanics (checkHashringFile env file owner scheme timeout portOffset
                 verbose probes).
Proof.
  unfold checkHashringFile.
  apply indexPanics_bind; [apply indexPanics_ReadFile|]. intros [body|].
  2:{ apply indexPanics_Printf. }
  destruct (json_unmarshal env body) as [hashrings|];
    [|apply indexPanics_Printf].
  apply indexPanics_bind; [apply indexPanics_reconcile|]. intros hs.
  apply indexPanics_materialize.
Qed.

(** A one-shot [main] panics only through an index out of range. *)
Lemma one_shot_panics_are_index_panics directory file owner scheme timeout
    portOffset verbose sch :
  indexPanics (hashringFiles <- buildFilesList env directory file verbose ;;
               run env hashringFiles owner scheme timeout portOffset verbose
                 sch).
Proof.
  apply indexPanics_bind.
  - unfold buildFilesList.
    apply indexPanics_bind.
    + destruct (negb _); [apply indexPanics_ret|].
      unfold listHashringFiles. intros w p w'.
      destruct (Walk _ _) as [files [|]]; done.
    + intros files. destruct verbose; [|apply indexPanics_ret].
      apply indexPanics_bind; [apply indexPanics_Printf|].
      intros; apply indexPanics_ret.
  - intros files. unfold run, goAll.
    apply indexPanics_bind; [|intros; apply indexPanics_ret].
    apply indexPanics_fanOut. intros f. apply indexPanics_checkHashringFile.
Qed.

End IndexPanics.

(** C5 (as amended). [main] aborts through [log.Fatal] exactly when the
    version flag is not set and the configuration breaks an invariant (both
    or neither of file and directory, or an interval not above the timeout);
    the abort happens before anything else: the world is untouched, no
    request sent, no file written.  With the version flag set, [main] prints
    the version and exits with status 0 without validating.  A configuration
    that passes the checks ends the process at start-up all the same when
    the scheduler is asked for and the interval is not a positive number of
    nanoseconds: [time.NewTicker] panics on line 272, again with the world
    untouched.  Nothing else makes the process abort or panic at start-up. *)
Theorem fatal_iff_invalid_configuration
    (env : Env) (flags : Flags) (sch : Schedule) (w : World) :
  ((exists m w', main env flags sch w = Fatal m w')
   <-> flag_version flags = false /\ violatesInvariant flags = true)
  /\ (forall m w', main env flags sch w = Fatal m w' -> w' = w)
  /\ (flag_version flags = true -> main env flags sch w = ExitVersion w)
  /\ (main env flags sch w = Panicked NonPositiveInterval w
      <-> flag_version flags = false /\ unusableInterval flags = true)
  /\ (forall w', main env flags sch w = Panicked NonPositiveInterval w' ->
                 w' = w)
  /\ (diesAtStartup (main env flags sch w) = true
      <-> flag_version flags = false
          /\ (violatesInvariant flags = true
              \/ unusableInterval flags = true)).
Proof.
  assert (forall (files : list string) r,
             r = (hashringFiles <-
                    buildFilesList env (flag_directory flags) (flag_file flags)
                      (flag_verbose flags) ;;
                  run env hashringFiles (flag_owner flags)
                    (flag_endpointScheme flags) (flag_endpointTimeout flags)
                    (flag_endpointPortOffset flags) (flag_verbose flags) sch) w ->
             forall w', r <> Panic NonPositiveInterval w') as Hpass.
  { intros _ r -> w' Hp.
    destruct (one_shot_panics_are_index_panics env (flag_directory flags)
                (flag_file flags) (flag_owner flags) (flag_endpointScheme flags)
                (flag_endpointTimeout flags) (flag_endpointPortOffset flags)
                (flag_verbose flags) sch w _ _ Hp) as (i & n & Hi).
    discriminate Hi. }
  specialize (Hpass [] _ eq_refl).
  unfold unusableInterval, main, violatesInvariant.
  destruct (flag_version flags).
  { split_and!; try done.
    - split; [by intros (? & ? & ?) | by intros [? _]].
    - split; [done | by intros [? _]].
    - split; [done | by intros [? _]]. }
  destruct ((String.eqb (flag_directory flags) "" && String.eqb (flag_file flags) "")
            || (negb (String.eqb (flag_directory flags) "")
                && negb (String.eqb (flag_file flags) ""))) eqn:Hmodes;
    cbn [orb negb andb].
  { split_and!; try done.
    - split; [done|]. intros _. by eexists _, _.
    - by intros ? ? [= _ <-].
    - split; [done | by intros [_ ?]].
    - cbn. split; [|done]. intros _. split; [done | by left]. }
  destruct (flag_interval flags <=? flag_endpointTimeout flags) eqn:Hint;
    cbn [orb negb andb].
  { split_and!; try done.
    - split; [done|]. intros _. by eexists _, _.
    - by intros ? ? [= _ <-].
    - split; [done | by intros [_ ?]].
    - cbn. split; [|done]. intros _. split; [done | by left]. }
  destruct (flag_schedule flags); cbn [negb andb].
  - destruct (time_NewTicker_panics (tickerDuration flags)).
    + split_and!; try done.
      * split; [by intros (? & ? & ?) | by intros [_ ?]].
      * by intros ? [= <-].
      * cbn. split; [|done]. intros _. split; [done | by right].
    + split_and!; try done.
      * split; [by intros (? & ? & ?) | by intros [_ ?]].
      * split; [done | by intros [_ ?]].
      * cbn. split; [done | by intros [_ [?|?]]].
  - destruct (bind _ _ w) as [a w1|p w1] eqn:Hr.
    + split_and!; try done.
      * split; [by intros (? & ? & ?) | by intros [_ ?]].
      * split; [done | by intros [_ ?]].
      * cbn. split; [done | by intros [_ [?|?]]].
    + assert (p <> NonPositiveInterval) as Hp.
      { intros ->. by apply (Hpass w1). }
      split_and!; try done.
      * split; [by intros (? & ? & ?) | by intros [_ ?]].
      * split; [by intros [= ?] | by intros [_ ?]].
      * by intros ? [= ? _].
      * destruct p; cbn; [|done].
        split; [done | by intros [_ [?|?]]].
Qed.

(** ** The scheduler and the termination signal *)

Lemma sched_exited_is_stuck env flags s e :
  sched_status s = Exited -> sched_step env flags s e = None.
Proof. intros H. unfold sched_step. by rewrite H. Qed.

(** C8 (what the program does). In scheduled mode on a single file, a tick
    starts a run; when the signal arrives before the file's goroutine has
    finished, the handler and then [main] proceed, [main] returns and the
    process is gone: the run is left with its file unprocessed, no request
    was sent and nothing was written, and no further step exists. *)
Theorem signal_abandons_run_in_flight (env : Env) (w : World) (sig : Signal) :
  let flags := mkFlags "/etc/thanos/hashring.json" EmptyString "thanos" "http"
                 5 1 10 true false false in
  exists s,
    main env flags (mkSchedule [] (fun _ _ => [])) w
    = Scheduling (sched_start flags w)
    /\ sched_exec env flags (sched_start flags w)
         [EvTick; EvSignal sig; EvHandler; EvMainReturns] = Some s
    /\ sched_status s = Exited
    /\ sched_ticking s = InRun ["/etc/thanos/hashring.json"]
    /\ requests (sched_world s) = requests w
    /\ writes (sched_world s) = writes w
    /\ fs (sched_world s) = fs w
    /\ forall e, sched_step env flags s e = None.
Proof.
  intros flags. eexists. split; [reflexivity|]. split; [reflexivity|].
  repeat split.
Qed.

(** ** Examples *)

Example Split_colon :
  strings.Split "thanos-receiver1.local.net:10901" ":"
  = ["thanos-receiver1.local.net"; "10901"].
Proof. reflexivity. Qed.

Example Split_json :
  strings.Split "/etc/thanos/hashring.json" ".json"
  = ["/etc/thanos/hashring"; EmptyString].
Proof. reflexivity. Qed.

Example Split_no_separator : strings.Split "localhost" ":" = ["localhost"].
Proof. reflexivity. Qed.

Example derivedName_first_occurrence :
  derivedName "/srv/a.json.d/ring.json" = "/srv/a_generated.json".
Proof. reflexivity. Qed.

Example Atoi_port : strconv.Atoi "10901" = (10901, None).
Proof. reflexivity. Qed.

Example Atoi_word : strconv.Atoi "http" = (0, Some strconv.ErrSyntax).
Proof. reflexivity. Qed.

Example Atoi_signed : strconv.Atoi "-42" = (-42, None).
Proof. reflexivity. Qed.

Example Atoi_out_of_range :
  strconv.Atoi "99999999999999999999" = (2 ^ 63 - 1, Some strconv.ErrRange).
Proof. vm_compute. reflexivity. Qed.

Example readyURL_default_offset :
  readyURL "http" "thanos-receiver1.local.net" 10901 1
  = "http://thanos-receiver1.local.net:10902/-/ready".
Proof. vm_compute. reflexivity. Qed.

Example sort_Strings_bytewise :
  sort_Strings ["b:9"; "c:1"; "b:10"; "a:7"] = ["a:7"; "b:10"; "b:9"; "c:1"].
Proof. vm_compute. reflexivity. Qed.

Example Marshal_omits_empty_fields :
  json.Marshal demo.quote
    (mk_slice [mkHashringConfig "hot" (mk_slice ["t1"; "t2"]) nil_slice;
               mkHashringConfig EmptyString (mk_slice []) (mk_slice ["x:1"])])
  = "[{" +:+ json.key "hashring" +:+ demo.quote "hot" +:+ ","
    +:+ json.key "tenants" +:+ "[" +:+ demo.quote "t1" +:+ "," +:+ demo.quote "t2"
    +:+ "]," +:+ json.key "endpoints" +:+ "null},{"
    +:+ json.key "endpoints" +:+ "[" +:+ demo.quote "x:1" +:+ "]}]".
Proof. vm_compute. reflexivity. Qed.

(** The scenario of the README: [b] is unreachable, [a] and [c] are ready;
    the derived file lists [a] and [c], sorted, whatever the order in which
    the probes finish. *)
Example one_member_down :
  forall choices,
    match checkHashringFile demo.b_down demo.path "thanos" "http" 5 1 false
            (fun _ => choices) demo.world with
    | Ok _ w' =>
        data <$> fs w' !! "/etc/thanos/hashring_generated.json"
        = Some ("[{" +:+ json.key "endpoints" +:+ "[" +:+ demo.quote "a:10901"
                +:+ "," +:+ demo.quote "c:10901" +:+ "]}]")
    | Panic _ _ => False
    end.
Proof.
  intros choices.
  assert (wellFormed (mk_slice [demo.hashring])) as Hwf by repeat constructor.
  destruct (checkHashringFile_decoded demo.b_down demo.path "thanos" "http" 5 1
              false (fun _ => choices) demo.world
              (mkFile demo.source 0 (0, 0)) (mk_slice [demo.hashring])
              eq_refl eq_refl eq_refl Hwf) as (w1 & (Hfs & _) & ->).
  rewrite materialize_absent by (by rewrite Hfs).
  destruct (save_written demo.b_down (derivedName demo.path) "thanos"
              (json.Marshal (json_quote demo.b_down)
                 (reconciled demo.b_down "http" 5 1 (mk_slice [demo.hashring])))
              w1 (mkUser "1000" "1000") eq_refl eq_refl)
    as (w2 & o & -> & Hfs2 & _).
  rewrite Hfs2.
  change (derivedName demo.path) with "/etc/thanos/hashring_generated.json".
  by rewrite lookup_insert_eq.
Qed.

Example discovery_skips_directories_and_derived_files :
  fst <$> Some (Walk demo.visits [])
  = Some ["/etc/thanos/current.json"; "/etc/thanos/hashring.json"].
Proof. reflexivity. Qed.

(** A write failure on one file does not stop the run: the other file's
    derived file is written. *)
Example write_failure_is_contained :
  (fun w => (data <$> fs w !! "/etc/thanos/hashring_generated.json",
             data <$> fs w !! "/etc/thanos/other_generated.json",
             logs w))
    (world_of (run demo.picky [demo.path; demo.other] "thanos" "http" 5 1 false
                 demo.oneShot demo.two_files))
  = (None,
     Some ("[{" +:+ json.key "endpoints" +:+ "[" +:+ demo.quote "a:10901"
           +:+ "," +:+ demo.quote "b:10901" +:+ "," +:+ demo.quote "c:10901"
           +:+ "]}]"),
     [(ErrorLogger, CannotSaveFileWrite "/etc/thanos/hashring_generated.json");
      (InfoLogger, FileSaved "/etc/thanos/other_generated.json")]).
Proof. vm_compute. reflexivity. Qed.

(** With no argument at all neither mode is chosen. *)
Example default_flags_are_rejected :
  main demo.b_down defaultFlags demo.oneShot demo.world
  = Fatal FatalArguments demo.world.
Proof. reflexivity. Qed.

Example interval_must_exceed_timeout :
  main demo.b_down
    (mkFlags demo.path EmptyString "thanos" "http" 10 1 10 false false false)
    demo.oneShot demo.world
  = Fatal (FatalInterval 10 10) demo.world.
Proof. reflexivity. Qed.

(** Without a signal the run started by a tick completes and the ticker
    goroutine is back in its [select]. *)
Example tick_then_run_completes :
  let flags := mkFlags demo.path EmptyString "thanos" "http" 5 1 10 true false
                 false in
  (fun s => (sched_status s, sched_ticking s, writes (sched_world s)))
    <$> sched_exec demo.b_down flags (sched_start flags demo.world)
          [EvTick; EvFileDone 0 (fun _ => []); EvRunDone]
  = Some (Alive, AtSelect, ["/etc/thanos/hashring_generated.json"]).
Proof. vm_compute. reflexivity. Qed.

(** ** The theorems at work on the small deployment *)

(** With [b] down and the probes finishing in the order [a], [c], [b], the
    member list is [a], [c]. *)
Lemma reconciled_members_sorted_ready_witness :
  Forall (fun e => hasSeparator e = true) (elems (Endpoints demo.hashring))
  /\ exists w',
       reconciledEndpoints demo.b_down "http" 5 1 false [2; 0]%nat
         demo.hashring demo.world
       = Ok (mk_slice ["a:10901"; "c:10901"]) w'.
Proof.
  assert (Forall (fun e => hasSeparator e = true)
            (elems (Endpoints demo.hashring))) as Hwf.
  { repeat constructor. }
  split; [exact Hwf|].
  destruct (reconciled_members_sorted_ready demo.b_down "http" 5 1 false
              [2; 0]%nat demo.hashring demo.world Hwf) as [[w' Hw'] _].
  exists w'. rewrite Hw'. f_equal.
Defined.

(** Two passes over the deployment with [b] down: one write, then none. *)
Lemma materializer_idempotent_witness :
  (fs demo.world !! demo.path = Some (mkFile demo.source 0 (0, 0))
   /\ fs_readable demo.b_down demo.path = true
   /\ json_unmarshal demo.b_down demo.source = Some (mk_slice [demo.hashring])
   /\ wellFormed (mk_slice [demo.hashring]))
  /\ exists w1 w2,
       checkHashringFile demo.b_down demo.path "thanos" "http" 5 1 false
         (fun _ => [2; 0]%nat) demo.world = Ok tt w1
       /\ checkHashringFile demo.b_down demo.path "thanos" "http" 5 1 false
            (fun _ => [1]%nat) w1 = Ok tt w2
       /\ writes w1 = ["/etc/thanos/hashring_generated.json"]
       /\ writes w2 = writes w1
       /\ fs w2 = fs w1.
Proof.
  assert (wellFormed (mk_slice [demo.hashring])) as Hwf.
  { repeat constructor. }
  split; [repeat split; exact Hwf|].
  destruct (materializer_idempotent demo.b_down demo.path "thanos" "http" 5 1
              false (fun _ => [2; 0]%nat) (fun _ => [1]%nat) demo.world
              (mkFile demo.source 0 (0, 0)) (mk_slice [demo.hashring])
              eq_refl eq_refl eq_refl Hwf) as [_ Honce].
  destruct Honce as (w1 & w2 & f & H1 & Hw1 & _ & _ & _ & H2 & Hw2 & Hfs).
  { reflexivity. }
  { by eexists. }
  { reflexivity. }
  exists w1, w2. repeat split; assumption.
Defined.


(** The disk is full: the save fails after the open, the error is logged
    and the derived file is left empty. *)
Lemma failed_save_keeps_file_unless_opened_witness :
  (user_lookup fixtures.disk_full "thanos" = None
   \/ fs_write fixtures.disk_full (derivedName demo.path) <> Written)
  /\ exists w' m,
       saveHashringFile fixtures.disk_full (derivedName demo.path) "thanos"
         "[{}]" fixtures.stale_world = Ok tt w'
       /\ logs w' = logs fixtures.stale_world ++ [(ErrorLogger, m)]
       /\ (data <$> fs w' !! derivedName demo.path) = Some EmptyString.
Proof.
  assert (user_lookup fixtures.disk_full "thanos" = None
          \/ fs_write fixtures.disk_full (derivedName demo.path) <> Written)
    as H.
  { right. discriminate. }
  split; [exact H|].
  destruct (failed_save_keeps_file_unless_opened fixtures.disk_full demo.path
              "thanos" "http" 5 1 false (fun _ => []) "[{}]"
              fixtures.stale_world H)
    as [(w' & m & Hsave & Hlog & _ & _ & Hshort) _].
  exists w', m. split_and!; [done..|].
  apply (Hshort 0%nat); [discriminate | reflexivity].
Defined.

(** Two definitions, one named with a tenant, one anonymous: names, tenants
    and order survive. *)
Lemma reconcile_preserves_identity_and_order_witness :
  wellFormed demo.two
  /\ exists hashrings' w',
       reconcile demo.b_down "http" 5 1 false (fun _ => [1]%nat) demo.two demo.world
       = Ok hashrings' w'
       /\ Hashring <$> elems hashrings' = ["hot"; "default"]
       /\ Tenants <$> elems hashrings' = [mk_slice ["tenant-a"]; nil_slice].
Proof.
  assert (wellFormed demo.two) as Hwf.
  { repeat constructor. }
  split; [exact Hwf|].
  destruct (reconcile_preserves_identity_and_order demo.b_down "http" 5 1 false
              (fun _ => [1]%nat) demo.two demo.world Hwf)
    as (hs' & w' & Heq & Hh & Ht & _).
  exists hs', w'. split; [exact Heq|]. split; [exact Hh | exact Ht].
Defined.

(** All three members down: the derived file holds one definition whose
    member list is [null]. *)
Lemma total_outage_is_written_witness :
  (fs demo.world !! demo.path = Some (mkFile demo.source 0 (0, 0))
   /\ fs_readable demo.all_down demo.path = true
   /\ json_unmarshal demo.all_down demo.source = Some (mk_slice [demo.hashring])
   /\ wellFormed (mk_slice [demo.hashring])
   /\ (forall h e, h ∈ [demo.hashring] -> e ∈ elems (Endpoints h) ->
                   ready demo.all_down "http" 5 1 e = false)
   /\ fs demo.world !! derivedName demo.path = None
   /\ is_Some (user_lookup demo.all_down "thanos")
   /\ fs_write demo.all_down (derivedName demo.path) = Written
   /\ fs_chown_ok demo.all_down (derivedName demo.path) = true)
  /\ exists w1 f,
       checkHashringFile demo.all_down demo.path "thanos" "http" 5 1 false
         (fun _ => []) demo.world = Ok tt w1
       /\ fs w1 !! "/etc/thanos/hashring_generated.json" = Some f
       /\ data f = "[{" +:+ json.key "endpoints" +:+ "null}]"
       /\ last (logs w1)
          = Some (InfoLogger, FileSaved "/etc/thanos/hashring_generated.json").
Proof.
  assert (wellFormed (mk_slice [demo.hashring])) as Hwf.
  { repeat constructor. }
  assert (forall h e, h ∈ [demo.hashring] -> e ∈ elems (Endpoints h) ->
                      ready demo.all_down "http" 5 1 e = false) as Hdown.
  { intros h e Hh He. apply list_elem_of_singleton in Hh. subst h.
    repeat (apply elem_of_cons in He as [->|He]; [reflexivity|]).
    by apply elem_of_nil in He. }
  assert (is_Some (user_lookup demo.all_down "thanos")) as Hu.
  { by eexists. }
  split; [repeat split; assumption|].
  destruct (total_outage_is_written demo.all_down demo.path "thanos" "http" 5 1
              false (fun _ => []) demo.world (mkFile demo.source 0 (0, 0))
              (mk_slice [demo.hashring])
              eq_refl eq_refl eq_refl Hwf Hdown eq_refl Hu eq_refl eq_refl)
    as (w1 & f & H1 & _ & _ & Hf & Hd & Hl).
  exists w1, f. repeat split; assumption.
Defined.

(** ** Where the specification and the program part *)

(** C4, as stated, fails: a write that fails after the open is a write
    failure, and the previous derived file does not survive it.  On a full
    disk the outdated derived file of [fixtures.stale_world] is left empty,
    and the pass logs that it cannot save. *)
Lemma failed_write_truncates_derived_file :
  ~ (forall (env : Env) (file owner scheme : string) (timeout portOffset : Z)
            (verbose : bool) (probes : nat -> list nat) (w : World),
        user_lookup env owner = None
        \/ fs_write env (derivedName file) <> Written ->
        (data <$> fs (world_of (checkHashringFile env file owner scheme
                                  timeout portOffset verbose probes w))
                    !! derivedName file)
        = (data <$> fs w !! derivedName file)).
Proof.
  intros H.
  specialize (H fixtures.disk_full demo.path "thanos" "http" 5 1 false
                (fun _ => []) fixtures.stale_world).
  assert (user_lookup fixtures.disk_full "thanos" = None
          \/ fs_write fixtures.disk_full (derivedName demo.path) <> Written)
    as Hfail by (right; discriminate).
  specialize (H Hfail). vm_compute in H. discriminate H.
Qed.

Example full_disk_empties_the_derived_file :
  let w' := world_of (checkHashringFile fixtures.disk_full demo.path "thanos"
                        "http" 5 1 false (fun _ => []) fixtures.stale_world) in
  (data <$> fs fixtures.stale_world !! fixtures.derived) = Some "[]"
  /\ (data <$> fs w' !! fixtures.derived) = Some EmptyString
  /\ last (logs w')
     = Some (ErrorLogger, CannotSaveFileWrite fixtures.derived).
Proof. vm_compute. by split_and!. Qed.

(** C5, as stated, fails: with the version flag set and neither a file nor
    a directory given, the configuration breaks the invariant but [main]
    prints the version and exits with status 0. *)
Lemma version_flag_skips_validation :
  ~ (forall (env : Env) (flags : Flags) (sch : Schedule) (w : World),
        (exists m w', main env flags sch w = Fatal m w')
        <-> violatesInvariant flags = true).
Proof.
  intros H.
  destruct (H demo.b_down
              (mkFlags EmptyString EmptyString "thanos" "http" 5 1 10
                 false false true)
              demo.oneShot demo.world) as [_ Hfatal].
  destruct (Hfatal eq_refl) as (m & w' & Hmain). discriminate Hmain.
Qed.

(** The checks of lines 258-264 let these two configurations through, and
    the process still ends at start-up: the interval 0 is above the timeout
    -1, and 9223372037 seconds are more nanoseconds than an [int64] holds. *)
Example zero_interval_panics_at_startup :
  let flags := mkFlags demo.path EmptyString "thanos" "http" (-1) 1 0
                 true false false in
  violatesInvariant flags = false
  /\ main demo.b_down flags demo.oneShot demo.world
     = Panicked NonPositiveInterval demo.world.
Proof. split; reflexivity. Qed.

Example overflowing_interval_panics_at_startup :
  let flags := mkFlags demo.path EmptyString "thanos" "http" 5 1 9223372037
                 true false false in
  violatesInvariant flags = false
  /\ tickerDuration flags = -9223372036709551616
  /\ main demo.b_down flags demo.oneShot demo.world
     = Panicked NonPositiveInterval demo.world.
Proof. split_and!; reflexivity. Qed.

(** C9, as stated, fails: a symbolic link whose name ends in [.json] is
    not a directory, so discovery returns it, and it is not a regular
    file. *)
Lemma discovery_returns_a_symlink :
  ~ (forall (env : Env) (directory : string) (w w' : World)
            (files : list string) (path : string),
        listHashringFiles env directory w = Ok files w' ->
        path ∈ files ->
        exists info,
          VisitOk path info ∈ fs_walk env (fs w) directory
          /\ IsRegular info = true).
Proof.
  intros H.
  destruct (H demo.linked "/etc/thanos" demo.world demo.world
              ["/etc/thanos/current.json"; "/etc/thanos/hashring.json"]
              "/etc/thanos/current.json" eq_refl)
    as (info & Hin & Hreg).
  { by left. }
  simpl in Hin. unfold demo.visits in Hin.
  repeat (apply elem_of_cons in Hin as [Heq|Hin];
          [first [discriminate Heq | (injection Heq as Hi; subst info; discriminate Hreg)]|]).
  by apply elem_of_nil in Hin.
Qed.

(** C10, as stated, fails: the port text [99999999999999999999x] is not a
    numeral, yet [Atoi] overflows on its digits before it reaches the
    invalid byte and returns the largest int with a range error; the probe
    goes to port 9223372036854775807, not to port 0. *)
Lemma overflowing_port_text_is_not_zero :
  ~ (forall (env : Env) (scheme endpoint : string) (timeout portOffset : Z)
            (verbose : bool) (w : World) (host portText : string)
            (rest : list string),
        strings.Split endpoint ":" = host :: portText :: rest ->
        isNumeral portText = false ->
        healthyEndpoint env scheme endpoint timeout portOffset verbose w
        = probe env
            (scheme +:+ "://" +:+ host +:+ ":"
             +:+ fmt_d (int_add 0 portOffset) +:+ "/-/ready")
            endpoint timeout verbose w).
Proof.
  intros H.
  specialize (H demo.b_down "http" "h:99999999999999999999x" 5 0 false
                demo.world "h" "99999999999999999999x" [] eq_refl eq_refl).
  apply (f_equal (fun r => requests (world_of r))) in H.
  vm_compute in H. discriminate H.
Qed.

Example overflowing_port_text_request :
  strconv.Atoi "99999999999999999999x" = (2 ^ 63 - 1, Some strconv.ErrRange)
  /\ requests
       (world_of (healthyEndpoint demo.b_down "http" "h:99999999999999999999x"
                    5 0 false demo.world))
     = ["http://h:9223372036854775807/-/ready"].
Proof. split; vm_compute; reflexivity. Qed.

(** * Further properties of the code *)

Section KeepsDisk.
Context (env : Env).

Lemma keepsDisk_ret {A} (a : A) : keepsDisk (ret a).
Proof. intros w. apply sameDisk_refl. Qed.

Lemma keepsDisk_bind {A B} (m : Go A) (k : A -> Go B) :
  keepsDisk m -> (forall a, keepsDisk (k a)) -> keepsDisk (bind m k).
Proof.
  intros Hm Hk w. unfold bind. specialize (Hm w).
  destruct (m w) as [a w1|p w1]; simpl in *; [|done].
  eapply sameDisk_trans; [exact Hm | apply Hk].
Qed.

Lemma keepsDisk_Printf l m : keepsDisk (Printf l m).
Proof. intros w. apply sameDisk_add_log. Qed.

Lemma keepsDisk_index {A} (l : list A) i : keepsDisk (index l i).
Proof. intros w. unfold index. destruct (l !! i); apply sameDisk_refl. Qed.

Lemma keepsDisk_ReadFile path : keepsDisk (ioutil_ReadFile env path).
Proof.
  intros w. unfold ioutil_ReadFile.
  destruct (fs w !! path); [destruct (fs_readable env path)|];
    apply sameDisk_refl.
Qed.

Lemma keepsDisk_probe url endpoint timeout verbose :
  keepsDisk (probe env url endpoint timeout verbose).
Proof.
  intros w. destruct (probe_result env url endpoint timeout verbose w)
    as (w' & -> & Hd). done.
Qed.

Lemma keepsDisk_healthyEndpoint scheme endpoint timeout portOffset verbose :
  keepsDisk (healthyEndpoint env scheme endpoint timeout portOffset verbose).
Proof.
  unfold healthyEndpoint.
  apply keepsDisk_bind; [apply keepsDisk_index|]; intros host.
  apply keepsDisk_bind; [apply keepsDisk_index|]; intros portText.
  apply keepsDisk_probe.
Qed.

Lemma keepsDisk_fanOut {A B} (body : A -> Go B) n choices pending :
  (forall a, keepsDisk (body a)) -> keepsDisk (fanOut body n choices pending).
Proof.
  intros Hbody. revert choices pending.
  induction n as [|n IH]; intros choices pending; cbn [fanOut].
  - apply keepsDisk_ret.
  - destruct (pending !! _); [|apply keepsDisk_ret].
    apply keepsDisk_bind; [done|]; intros b.
    apply keepsDisk_bind; [apply IH|]; intros bs. apply keepsDisk_ret.
Qed.

Lemma keepsDisk_reconciledEndpoints scheme timeout portOffset verbose choices h :
  keepsDisk (reconciledEndpoints env scheme timeout portOffset verbose choices h).
Proof.
  unfold reconciledEndpoints, collectEndpoints, goAll.
  apply keepsDisk_bind; [|intros; apply keepsDisk_ret].
  apply keepsDisk_bind; [|intros; apply keepsDisk_ret].
  apply keepsDisk_fanOut. intros e. apply keepsDisk_healthyEndpoint.
Qed.

Lemma keepsDisk_rangeHashrings scheme timeout portOffset verbose probes
    positions :
  forall l,
    keepsDisk (rangeHashrings env scheme timeout portOffset verbose probes
                 positions l).
Proof.
  induction positions as [|pos positions IH]; intros l; cbn [rangeHashrings].
  - apply keepsDisk_ret.
  - apply keepsDisk_bind; [apply keepsDisk_index|]; intros h.
    apply keepsDisk_bind; [apply keepsDisk_reconciledEndpoints|].
    intros endpoints. apply IH.
Qed.

Lemma keepsDisk_reconcile scheme timeout portOffset verbose probes hashrings :
  keepsDisk (reconcile env scheme timeout portOffset verbose probes hashrings).
Proof.
  destruct hashrings as [|l]; [apply keepsDisk_ret|]. simpl.
  apply keepsDisk_bind; [apply keepsDisk_rangeHashrings|].
  intros; apply keepsDisk_ret.
Qed.

(** *** A definition with a malformed address *)

Lemma rangeHashrings_panics scheme timeout portOffset verbose probes
    (todo : list HashringConfig) :
  forall (visited : list HashringConfig) (w : World),
    ~ Forall (fun h => Forall (fun e => hasSeparator e = true)
                         (elems (Endpoints h))) todo ->
    exists w',
      rangeHashrings env scheme timeout portOffset verbose probes
        (seq (length visited) (length todo)) (visited ++ todo) w
      = Panic (IndexOutOfRange 1 1) w'.
Proof.
  induction todo as [|h todo IH]; intros visited w Hbad.
  - exfalso. apply Hbad. constructor.
  - cbn [length seq rangeHashrings]. unfold bind at 1. unfold index at 1.
    rewrite list_lookup_middle by done. unfold bind at 1.
    destruct (decide (Forall (fun e => hasSeparator e = true)
                        (elems (Endpoints h)))) as [Hh|Hh].
    + destruct (reconciledEndpoints_result env scheme timeout portOffset
                  verbose (probes (length visited)) h w Hh) as (w1 & -> & _).
      replace (<[length visited:=_]> (visited ++ h :: todo))
        with ((visited ++ [reconciledHashring env scheme timeout portOffset h])
              ++ todo).
      2:{ replace (length visited) with (length visited + 0)%nat at 1 by lia.
          rewrite insert_app_r. simpl. by rewrite <- app_assoc. }
      replace (S (length visited))
        with (length (visited
                      ++ [reconciledHashring env scheme timeout portOffset h])).
      2:{ rewrite length_app. simpl. lia. }
      apply IH. intros Hall. apply Hbad. by constructor.
    + apply not_Forall_Exists in Hh; [|apply _].
      apply Exists_exists in Hh as (e & Hin & He).
      apply not_true_is_false in He.
      destruct (reconciledEndpoints_panics env scheme timeout portOffset
                  verbose (probes (length visited)) h w e Hin He) as (w' & ->).
      by exists w'.
Qed.

Lemma reconcile_panics scheme timeout portOffset verbose probes hashrings w :
  ~ wellFormed hashrings ->
  exists w',
    reconcile env scheme timeout portOffset verbose probes hashrings w
    = Panic (IndexOutOfRange 1 1) w'
    /\ sameDisk w w'.
Proof.
  intros Hbad.
  pose proof (keepsDisk_reconcile scheme timeout portOffset verbose probes
                hashrings w) as Hk.
  destruct hashrings as [|l].
  { exfalso. apply Hbad. constructor. }
  simpl in *. unfold bind in *.
  destruct (rangeHashrings_panics scheme timeout portOffset verbose probes
              l [] w Hbad) as (w' & H).
  simpl in H. rewrite H in *. by exists w'.
Qed.

End KeepsDisk.

Section Outcome.
Context (env : Env).

Lemma sameDisk_sym w w' : sameDisk w w' -> sameDisk w' w.
Proof. intros (?&?&?). by repeat split. Qed.

(** What [materialize] does to the disk depends on the disk alone, not on
    the logs, the requests or the verbosity. *)
Lemma materialize_disk file owner content verbose1 verbose2 w1 w2 :
  sameDisk w1 w2 ->
  exists w1' w2',
    materialize env file owner verbose1 content w1 = Ok tt w1'
    /\ materialize env file owner verbose2 content w2 = Ok tt w2'
    /\ sameDisk w1' w2'
    /\ requests w1' = requests w1 /\ requests w2' = requests w2.
Proof.
  destruct w1 as [fs1 c1 l1 r1 wr1], w2 as [fs2 c2 l2 r2 wr2].
  intros (Hfs & Hc & Hw). simpl in Hfs, Hc, Hw. subst fs2 c2 wr2.
  unfold materialize, bind. rewrite !generatedName_result.
  unfold os_Stat, ioutil_ReadFile, saveHashringFile, bind, ioutil_WriteFile,
    os_Chown, Printf, ret, stored. cbn [fs clock logs requests writes].
  destruct (fs1 !! derivedName file) as [existing|] eqn:He; cbn;
    rewrite ?He; cbn.
  - destruct (fs_readable env (derivedName file));
      [|eexists _, _; by repeat split].
    destruct (String.eqb (sha256_Sum256 env (data existing))
                (sha256_Sum256 env content)).
    { destruct verbose1, verbose2; eexists _, _; by repeat split. }
    destruct (user_lookup env owner) as [g|];
      [|eexists _, _; by repeat split].
    destruct (fs_write env (derivedName file)); cbn;
      rewrite ?lookup_insert_eq; cbn;
      try (eexists _, _; by repeat split).
    destruct (fs_chown_ok env (derivedName file)); cbn;
      eexists _, _; by repeat split.
  - destruct (user_lookup env owner) as [g|];
      [|eexists _, _; by repeat split].
    destruct (fs_write env (derivedName file)); cbn;
      rewrite ?lookup_insert_eq; cbn;
      try (eexists _, _; by repeat split).
    destruct (fs_chown_ok env (derivedName file)); cbn;
      eexists _, _; by repeat split.
Qed.

End Outcome.

(** X1. Whether a pass over a source file returns or panics, and the
    files on disk, the clock and the record of writes it leaves, do not
    depend on the order in which the probes finish nor on the verbosity.
    (The log and the requests recorded are not part of the statement: they
    do depend on the order.) *)
Theorem pass_outcome_independent_of_schedule
    (env : Env) (file owner scheme : string) (timeout portOffset : Z)
    (verbose1 verbose2 : bool) (probes1 probes2 : nat -> list nat)
    (w : World) :
  let pass1 := checkHashringFile env file owner scheme timeout portOffset
                 verbose1 probes1 w in
  let pass2 := checkHashringFile env file owner scheme timeout portOffset
                 verbose2 probes2 w in
  verdict pass1 = verdict pass2
  /\ sameDisk (world_of pass1) (world_of pass2).
Proof.
  cbv zeta.
  unfold checkHashringFile, bind at 1 3 5 7, ioutil_ReadFile.
  destruct (fs w !! file) as [src|]; [|by repeat split].
  destruct (fs_readable env file); [|by repeat split].
  destruct (json_unmarshal env (data src)) as [hashrings|]; [|by repeat split].
  unfold bind.
  destruct (decide (wellFormed hashrings)) as [Hwf|Hbad].
  - destruct (reconcile_result env scheme timeout portOffset verbose1 probes1
                hashrings w Hwf) as (w1 & -> & Hd1).
    destruct (reconcile_result env scheme timeout portOffset verbose2 probes2
                hashrings w Hwf) as (w2 & -> & Hd2).
    destruct (materialize_disk env file owner
                (json.Marshal (json_quote env)
                   (reconciled env scheme timeout portOffset hashrings))
                verbose1 verbose2 w1 w2) as (w1' & w2' & -> & -> & Hd & _).
    { eapply sameDisk_trans; [apply sameDisk_sym, Hd1 | exact Hd2]. }
    split; [reflexivity | exact Hd].
  - destruct (reconcile_panics env scheme timeout portOffset verbose1 probes1
                hashrings w Hbad) as (w1 & -> & Hd1).
    destruct (reconcile_panics env scheme timeout portOffset verbose2 probes2
                hashrings w Hbad) as (w2 & -> & Hd2).
    simpl. split; [reflexivity|].
    eapply sameDisk_trans; [apply sameDisk_sym, Hd1 | exact Hd2].
Qed.

Lemma checkHashringFile_panics
    (env : Env) (file ownerName scheme : string) (timeout portOffset : Z)
    (verbose : bool) (probes : nat -> list nat) (w : World)
    (src : File) (hashrings : slice HashringConfig) :
  fs w !! file = Some src ->
  fs_readable env file = true ->
  json_unmarshal env (data src) = Some hashrings ->
  ~ wellFormed hashrings ->
  exists w',
    checkHashringFile env file ownerName scheme timeout portOffset verbose
      probes w
    = Panic (IndexOutOfRange 1 1) w'
    /\ sameDisk w w'.
Proof.
  intros Hs Hr Hd Hbad. unfold checkHashringFile, bind at 1, ioutil_ReadFile.
  rewrite Hs, Hr, Hd. unfold bind.
  destruct (reconcile_panics env scheme timeout portOffset verbose probes
              hashrings w Hbad) as (w' & -> & Hsd).
  by exists w'.
Qed.

(** X2. When the decoded source holds an address without a separator, in
    any definition, the pass panics with an index out of range whatever the
    order of the probes; the disk is left as it was and nothing is
    written. *)
Theorem malformed_address_crashes_pass
    (env : Env) (file ownerName scheme : string) (timeout portOffset : Z)
    (verbose : bool) (probes : nat -> list nat) (w : World)
    (src : File) (hashrings : slice HashringConfig) :
  fs w !! file = Some src ->
  fs_readable env file = true ->
  json_unmarshal env (data src) = Some hashrings ->
  ~ wellFormed hashrings ->
  exists w',
    checkHashringFile env file ownerName scheme timeout portOffset verbose
      probes w
    = Panic (IndexOutOfRange 1 1) w'
    /\ fs w' = fs w /\ clock w' = clock w /\ writes w' = writes w.
Proof.
  intros Hs Hr Hd Hbad.
  destruct (checkHashringFile_panics env file ownerName scheme timeout
              portOffset verbose probes w src hashrings Hs Hr Hd Hbad)
    as (w' & H & Hsd).
  by exists w'.
Qed.

(** X3. When the source file is missing, unreadable or cannot be decoded,
    the pass logs one error and does nothing else: no request is sent, no
    file is written. *)
Theorem unusable_source_is_only_logged
    (env : Env) (file owner scheme : string) (timeout portOffset : Z)
    (verbose : bool) (probes : nat -> list nat) (w : World) :
  (fs w !! file = None
   \/ fs_readable env file = false
   \/ exists src, fs w !! file = Some src
                  /\ json_unmarshal env (data src) = None) ->
  exists m,
    checkHashringFile env file owner scheme timeout portOffset verbose probes w
    = Ok tt (add_log (ErrorLogger, m) w)
    /\ (m = UnableToReadFile file \/ m = UnableToDecodeFile file).
Proof.
  unfold checkHashringFile, bind, ioutil_ReadFile.
  intros [Hn|[Hr|(src & Hs & Hd)]].
  - rewrite Hn. eexists. split; [reflexivity | by left].
  - destruct (fs w !! file); rewrite ?Hr;
      (eexists; split; [reflexivity | by left]).
  - rewrite Hs. destruct (fs_readable env file).
    + rewrite Hd. eexists. split; [reflexivity | by right].
    + eexists. split; [reflexivity | by left].
Qed.

Section Overwrite.
Context (env : Env).

(** A successful save in full: the bytes, the stamp, the owner, the log
    line, and nothing else on disk. *)
Lemma save_written_full file ownerName content w g :
  user_lookup env ownerName = Some g ->
  fs_write env file = Written ->
  exists w',
    saveHashringFile env file ownerName content w = Ok tt w'
    /\ fs w'
       = <[file := mkFile content (clock w)
                     (if fs_chown_ok env file
                      then (fst (strconv.Atoi (Uid g)),
                            fst (strconv.Atoi (Gid g)))
                      else match fs w !! file with
                           | Some f => owner f
                           | None => proc_owner env
                           end)]> (fs w)
    /\ clock w' = S (clock w)
    /\ writes w' = writes w ++ [file]
    /\ requests w' = requests w
    /\ logs w' = logs w ++ [if fs_chown_ok env file
                            then (InfoLogger, FileSaved file)
                            else (ErrorLogger, CannotSetOwner ownerName file)].
Proof.
  intros Hu Hw. unfold saveHashringFile, bind, ioutil_WriteFile, os_Chown.
  rewrite Hu, Hw. cbn [negb fs set_clock set_fs add_write].
  rewrite lookup_insert_eq.
  destruct (fs_chown_ok env file); cbn [negb].
  - eexists. split; [reflexivity|]. cbn.
    rewrite insert_insert_eq. by repeat split.
  - eexists. split; [reflexivity|]. cbn. by repeat split.
Qed.

Lemma materialize_stale file owner verbose content w existing :
  fs w !! derivedName file = Some existing ->
  fs_readable env (derivedName file) = true ->
  sha256_Sum256 env (data existing) <> sha256_Sum256 env content ->
  materialize env file owner verbose content w
  = saveHashringFile env (derivedName file) owner content w.
Proof.
  intros He Hr Hsha. unfold materialize, bind. rewrite generatedName_result.
  unfold os_Stat. rewrite He. rewrite bool_decide_eq_true_2 by eauto.
  unfold ioutil_ReadFile. rewrite He, Hr.
  by rewrite (proj2 (String.eqb_neq _ _) Hsha).
Qed.

Lemma materialize_unreadable file owner verbose content w existing :
  fs w !! derivedName file = Some existing ->
  fs_readable env (derivedName file) = false ->
  materialize env file owner verbose content w
  = Ok tt (add_log (ErrorLogger, UnableToReadFile file) w).
Proof.
  intros He Hr. unfold materialize, bind. rewrite generatedName_result.
  unfold os_Stat. rewrite He. rewrite bool_decide_eq_true_2 by eauto.
  unfold ioutil_ReadFile. by rewrite He, Hr.
Qed.

End Overwrite.

(** X4. When the derived file on disk is readable and its digest differs
    from the digest of the new configuration, the pass overwrites it: one
    [WriteFile] call, the new bytes, the stamp of the write, the owner
    looked up (or the previous owner when [Chown] fails), and no other file
    changes. *)
Theorem stale_derived_file_is_overwritten
    (env : Env) (file ownerName scheme : string) (timeout portOffset : Z)
    (verbose : bool) (probes : nat -> list nat) (w : World)
    (src existing : File) (hashrings : slice HashringConfig) (g : User) :
  fs w !! file = Some src ->
  fs_readable env file = true ->
  json_unmarshal env (data src) = Some hashrings ->
  wellFormed hashrings ->
  let content :=
    json.Marshal (json_quote env)
      (reconciled env scheme timeout portOffset hashrings) in
  fs w !! derivedName file = Some existing ->
  fs_readable env (derivedName file) = true ->
  sha256_Sum256 env (data existing) <> sha256_Sum256 env content ->
  user_lookup env ownerName = Some g ->
  fs_write env (derivedName file) = Written ->
  exists w',
    checkHashringFile env file ownerName scheme timeout portOffset verbose probes w
    = Ok tt w'
    /\ writes w' = writes w ++ [derivedName file]
    /\ fs w' !! derivedName file
       = Some (mkFile content (clock w)
                 (if fs_chown_ok env (derivedName file)
                  then (fst (strconv.Atoi (Uid g)), fst (strconv.Atoi (Gid g)))
                  else owner existing))
    /\ forall p, p <> derivedName file -> fs w' !! p = fs w !! p.
Proof.
  intros Hs Hr Hd Hwf content He Hre Hsha Hu Hw.
  destruct (checkHashringFile_decoded env file ownerName scheme timeout portOffset
              verbose probes w src hashrings Hs Hr Hd Hwf)
    as (w1 & (Hfs & Hck & Hwr) & ->).
  fold content.
  rewrite (materialize_stale env file ownerName verbose content w1 existing)
    by (rewrite ?Hfs; done).
  destruct (save_written_full env (derivedName file) ownerName content w1 g Hu Hw)
    as (w' & -> & Hfs' & _ & Hwr' & _).
  exists w'. split; [done|]. split; [congruence|].
  rewrite Hfs', Hfs, He, Hck. split.
  - by rewrite lookup_insert_eq.
  - intros p Hp. by rewrite lookup_insert_ne.
Qed.

(** X5. When a derived file exists but cannot be read, the pass gives up
    after the probes: it logs that it was unable to read (naming the source
    file, as line 172 does), makes no [WriteFile] call and leaves the disk
    as it was, whatever the digests are. *)
Theorem unreadable_derived_file_blocks_update
    (env : Env) (file owner scheme : string) (timeout portOffset : Z)
    (verbose : bool) (probes : nat -> list nat) (w : World)
    (src existing : File) (hashrings : slice HashringConfig) :
  fs w !! file = Some src ->
  fs_readable env file = true ->
  json_unmarshal env (data src) = Some hashrings ->
  wellFormed hashrings ->
  fs w !! derivedName file = Some existing ->
  fs_readable env (derivedName file) = false ->
  exists w',
    checkHashringFile env file owner scheme timeout portOffset verbose probes w
    = Ok tt w'
    /\ fs w' = fs w /\ clock w' = clock w /\ writes w' = writes w
    /\ last (logs w') = Some (ErrorLogger, UnableToReadFile file).
Proof.
  intros Hs Hr Hd Hwf He Hre.
  destruct (checkHashringFile_decoded env file owner scheme timeout portOffset
              verbose probes w src hashrings Hs Hr Hd Hwf)
    as (w1 & (Hfs & Hck & Hwr) & ->).
  rewrite (materialize_unreadable env file owner verbose _ w1 existing)
    by (rewrite ?Hfs; done).
  eexists. split; [reflexivity|]. cbn. repeat split; try done.
  apply last_snoc.
Qed.

(** X6. When the write succeeds but [Chown] fails, the derived file stays
    with the owner of the process, the failure is logged instead of the
    save, and the next pass, finding the digest it expects, neither writes
    nor changes the owner again. *)
Theorem failed_chown_is_not_retried
    (env : Env) (file ownerName scheme : string) (timeout portOffset : Z)
    (verbose : bool) (probes1 probes2 : nat -> list nat) (w : World)
    (src : File) (hashrings : slice HashringConfig) (g : User) :
  fs w !! file = Some src ->
  fs_readable env file = true ->
  json_unmarshal env (data src) = Some hashrings ->
  wellFormed hashrings ->
  fs w !! derivedName file = None ->
  user_lookup env ownerName = Some g ->
  fs_write env (derivedName file) = Written ->
  fs_chown_ok env (derivedName file) = false ->
  let pass := checkHashringFile env file ownerName scheme timeout portOffset
                verbose in
  exists w1 w2 f,
    pass probes1 w = Ok tt w1
    /\ fs w1 !! derivedName file = Some f
    /\ owner f = proc_owner env
    /\ last (logs w1)
       = Some (ErrorLogger, CannotSetOwner ownerName (derivedName file))
    /\ pass probes2 w1 = Ok tt w2
    /\ fs w2 = fs w1 /\ writes w2 = writes w1.
Proof.
  intros Hs Hr Hd Hwf Habs Hu Hw Hch pass.
  set (content := json.Marshal (json_quote env)
                    (reconciled env scheme timeout portOffset hashrings)).
  destruct (checkHashringFile_decoded env file ownerName scheme timeout portOffset
              verbose probes1 w src hashrings Hs Hr Hd Hwf)
    as (w' & (Hfs & Hck & Hwr) & Heq).
  destruct (save_written_full env (derivedName file) ownerName content w' g Hu Hw)
    as (w1 & Hsave & Hfs1 & _ & _ & _ & Hlog).
  rewrite Hch, Hfs, Habs in Hfs1. rewrite Hch in Hlog.
  assert (pass probes1 w = Ok tt w1) as Hp1.
  { unfold pass. rewrite Heq. fold content.
    rewrite materialize_absent by (by rewrite Hfs). done. }
  assert (fs w1 !! file = Some src) as Hsrc1.
  { rewrite Hfs1, lookup_insert_ne by apply derivedName_fresh. done. }
  destruct (checkHashringFile_decoded env file ownerName scheme timeout portOffset
              verbose probes2 w1 src hashrings Hsrc1 Hr Hd Hwf)
    as (w1' & (Hfs' & Hck' & Hwr') & Heq2).
  destruct (materialize_present env file ownerName verbose content w1'
              (mkFile content (clock w') (proc_owner env)))
    as (w2 & Hm & (Hfs2 & _ & Hwr2) & _).
  { rewrite Hfs', Hfs1. apply lookup_insert_eq. }
  { done. }
  exists w1, w2, (mkFile content (clock w') (proc_owner env)).
  split; [done|]. split; [rewrite Hfs1; apply lookup_insert_eq|].
  split; [done|]. split; [rewrite Hlog; apply last_snoc|].
  split; [unfold pass; rewrite Heq2; fold content; done|].
  split; congruence.
Qed.

Section Requests.
Context (env : Env) (scheme : string) (timeout portOffset : Z).

Lemma probe_requests url endpoint verbose w :
  exists sent w',
    probe env url endpoint timeout verbose w = Ok sent w'
    /\ requests w' = requests w ++ (if http_url_ok env url then [url] else []).
Proof.
  unfold probe, bind, http_Do.
  destruct (http_url_ok env url); cbn [negb].
  2:{ eexists _, _. split; [reflexivity|]. cbn. by rewrite app_nil_r. }
  destruct (http_do env timeout url) as [r|].
  2:{ by eexists _, _. }
  destruct ((StatusCode r =? 200) && (Body r =? "OK")%string).
  - destruct verbose; by eexists _, _.
  - by eexists _, _.
Qed.

Lemma probedURLs_singleton e :
  probedURLs env scheme portOffset [e]
  = if http_url_ok env (memberURL scheme portOffset e)
    then [memberURL scheme portOffset e] else [].
Proof. unfold probedURLs. cbn. by rewrite app_nil_r. Qed.

Lemma probedURLs_cons e l :
  probedURLs env scheme portOffset (e :: l)
  = probedURLs env scheme portOffset [e] ++ probedURLs env scheme portOffset l.
Proof. unfold probedURLs. cbn. by rewrite app_nil_r. Qed.

Lemma healthyEndpoint_requests endpoint verbose w :
  hasSeparator endpoint = true ->
  exists sent w',
    healthyEndpoint env scheme endpoint timeout portOffset verbose w
    = Ok sent w'
    /\ requests w' = requests w ++ probedURLs env scheme portOffset [endpoint].
Proof.
  intros Hs. destruct (hasSeparator_Split _ Hs) as (host & portText & rest & Hsp).
  rewrite (healthyEndpoint_parsed _ _ _ _ _ _ _ _ _ _ Hsp).
  rewrite probedURLs_singleton. unfold memberURL. rewrite Hsp.
  apply probe_requests.
Qed.

Lemma fanOut_requests {B} (body : string -> Go B) (n : nat) :
  forall (pending : list string) choices w,
    n = length pending ->
    (forall e w, e ∈ pending ->
       exists b w', body e w = Ok b w'
                    /\ requests w' = requests w
                                     ++ probedURLs env scheme portOffset [e]) ->
    exists bs w' sent,
      fanOut body n choices pending w = Ok bs w'
      /\ requests w' = requests w ++ sent
      /\ sent ≡ₚ probedURLs env scheme portOffset pending.
Proof.
  induction n as [|n IH]; intros pending choices w Hn Hbody.
  - destruct pending; [|done]. exists [], w, []. simpl.
    split_and!; [done | by rewrite app_nil_r | reflexivity].
  - cbn [fanOut].
    set (i := (hd 0%nat choices mod length pending)%nat).
    assert (i < length pending)%nat as Hi.
    { apply Nat.mod_upper_bound. lia. }
    destruct (lookup_lt_is_Some_2 pending i Hi) as [e He].
    rewrite He. unfold bind.
    destruct (Hbody e w) as (b & w1 & Hb & Hr1).
    { by eapply list_elem_of_lookup_2. }
    rewrite Hb.
    destruct (IH (delete i pending) (tail choices) w1)
      as (bs & w2 & sent & Hf & Hr2 & Hp).
    { rewrite length_delete by eauto. lia. }
    { intros e' w' Hin. apply Hbody. by eapply list_elem_of_delete_inv. }
    rewrite Hf.
    exists (b :: bs), w2, (probedURLs env scheme portOffset [e] ++ sent).
    split; [reflexivity|]. split.
    + rewrite Hr2, Hr1. by rewrite <- app_assoc.
    + rewrite Hp, <- probedURLs_cons. unfold probedURLs.
      by rewrite <- (delete_Permutation pending i e He).
Qed.

Lemma reconciledEndpoints_requests verbose choices hashring w :
  Forall (fun e => hasSeparator e = true) (elems (Endpoints hashring)) ->
  exists w' sent,
    reconciledEndpoints env scheme timeout portOffset verbose choices hashring w
    = Ok (appended (readyMembers env scheme timeout portOffset hashring)) w'
    /\ requests w' = requests w ++ sent
    /\ sent ≡ₚ probedURLs env scheme portOffset (elems (Endpoints hashring)).
Proof.
  intros Hwf.
  destruct (reconciledEndpoints_result env scheme timeout portOffset verbose
              choices hashring w Hwf) as (w' & Heq & _).
  exists w'. rewrite Heq.
  unfold reconciledEndpoints, collectEndpoints, goAll, bind in Heq.
  destruct (fanOut_requests
              (fun e => healthyEndpoint env scheme e timeout portOffset verbose)
              (length (elems (Endpoints hashring)))
              (elems (Endpoints hashring)) choices w eq_refl)
    as (bs & w1 & sent & Hf & Hr & Hp).
  { intros e w0 Hin. apply healthyEndpoint_requests.
    by eapply (proj1 (Forall_forall _ _) Hwf). }
  rewrite Hf in Heq. injection Heq as _ <-.
  by exists sent.
Qed.

Lemma rangeHashrings_requests verbose probes (todo : list HashringConfig) :
  forall (visited : list HashringConfig) (w : World),
    Forall (fun h => Forall (fun e => hasSeparator e = true)
                       (elems (Endpoints h))) todo ->
    exists l' w' sent,
      rangeHashrings env scheme timeout portOffset verbose probes
        (seq (length visited) (length todo)) (visited ++ todo) w
      = Ok l' w'
      /\ requests w' = requests w ++ sent
      /\ sent ≡ₚ probedURLs env scheme portOffset
                   (todo ≫= (fun h => elems (Endpoints h))).
Proof.
  induction todo as [|h todo IH]; intros visited w Hwf.
  - exists (visited ++ []), w, []. simpl.
    split_and!; [done | by rewrite app_nil_r | reflexivity].
  - apply Forall_cons in Hwf as [Hh Hwf].
    cbn [length seq rangeHashrings]. unfold bind at 1. unfold index at 1.
    rewrite list_lookup_middle by done. unfold bind at 1.
    destruct (reconciledEndpoints_requests verbose (probes (length visited))
                h w Hh) as (w1 & sent1 & -> & Hr1 & Hp1).
    replace (<[length visited:=_]> (visited ++ h :: todo))
      with ((visited ++ [reconciledHashring env scheme timeout portOffset h])
            ++ todo).
    2:{ replace (length visited) with (length visited + 0)%nat at 1 by lia.
        rewrite insert_app_r. simpl. by rewrite <- app_assoc. }
    replace (S (length visited))
      with (length (visited
                    ++ [reconciledHashring env scheme timeout portOffset h])).
    2:{ rewrite length_app. simpl. lia. }
    destruct (IH (visited ++ [reconciledHashring env scheme timeout portOffset h])
                w1 Hwf) as (l' & w2 & sent2 & -> & Hr2 & Hp2).
    exists l', w2, (sent1 ++ sent2). split; [done|]. split.
    + rewrite Hr2, Hr1. by rewrite <- app_assoc.
    + rewrite Hp1, Hp2. unfold probedURLs. cbn.
      by rewrite bind_app.
Qed.

End Requests.

(** X7. A pass over a readable, well-formed source calls [client.Do]
    (line 95) exactly once per listed member whose request can be built,
    duplicates included, with the readiness URL of that member, and makes no
    other call: no member is retried and none is skipped.  The statement
    counts the calls the program makes, not the hops of a redirect that the
    client follows inside one call. *)
Theorem pass_calls_Do_once_per_member
    (env : Env) (file owner scheme : string) (timeout portOffset : Z)
    (verbose : bool) (probes : nat -> list nat) (w : World)
    (src : File) (hashrings : slice HashringConfig) :
  fs w !! file = Some src ->
  fs_readable env file = true ->
  json_unmarshal env (data src) = Some hashrings ->
  wellFormed hashrings ->
  exists w' sent,
    checkHashringFile env file owner scheme timeout portOffset verbose probes w
    = Ok tt w'
    /\ requests w' = requests w ++ sent
    /\ sent ≡ₚ probedURLs env scheme portOffset (allMembers hashrings).
Proof.
  intros Hs Hr Hd Hwf. unfold checkHashringFile, bind at 1, ioutil_ReadFile.
  rewrite Hs, Hr, Hd. unfold bind at 1.
  assert (exists hs' w1 sent,
             reconcile env scheme timeout portOffset verbose probes hashrings w
             = Ok hs' w1
             /\ requests w1 = requests w ++ sent
             /\ sent ≡ₚ probedURLs env scheme portOffset (allMembers hashrings))
    as (hs' & w1 & sent & -> & Hr1 & Hp).
  { destruct hashrings as [|l]; simpl.
    - exists nil_slice, w, [].
      split_and!; [done | by rewrite app_nil_r | reflexivity].
    - unfold bind.
      destruct (rangeHashrings_requests env scheme timeout portOffset verbose
                  probes l [] w Hwf) as (l' & w1 & sent & H & Hr1 & Hp).
      simpl in H. rewrite H. by exists (mk_slice l'), w1, sent. }
  destruct (materialize_disk env file owner
              (json.Marshal (json_quote env) hs') verbose verbose w1 w1)
    as (w' & _ & -> & _ & _ & Hrq & _).
  { apply sameDisk_refl. }
  exists w', sent. split; [done|]. split; [congruence | done].
Qed.

(** ** Discovery, in full *)

Lemma Walk_spec (visits : list Visit) :
  forall files,
    Walk visits files
    = (files ++ omap selected (beforeError visits), hasError visits).
Proof.
  induction visits as [|v visits IH]; intros files;
    cbn [Walk beforeError hasError].
  - by rewrite app_nil_r.
  - destruct v as [path info|path]; cbn [walkFn].
    + change (omap selected (VisitOk path info :: beforeError visits))
        with (match selected (VisitOk path info) with
              | Some p => p :: omap selected (beforeError visits)
              | None => omap selected (beforeError visits)
              end).
      unfold selected at 1.
      destruct (negb (IsDir info)
                && negb (strings.HasSuffix path "_generated.json")
                && strings.HasSuffix path ".json"); cbn [fst snd].
      * rewrite IH. by rewrite <- app_assoc.
      * by rewrite IH.
    + cbn. by rewrite app_nil_r.
Qed.

(** X8. Directory discovery returns, in the order of the walk, every
    visited path that is not a directory, ends in [.json] and does not end
    in [_generated.json], up to the first visit that carries an error; it
    logs one error line exactly when the walk met an error, and the files
    after the error are not returned. *)
Theorem discovery_lists_sources_in_walk_order
    (env : Env) (directory : string) (w : World) :
  let visits := fs_walk env (fs w) directory in
  listHashringFiles env directory w
  = Ok (omap selected (beforeError visits))
       (if hasError visits then add_log (ErrorLogger, WalkError) w else w).
Proof.
  intros visits. unfold listHashringFiles. fold visits.
  rewrite Walk_spec. simpl. by destruct (hasError visits).
Qed.

(** ** Reconciling twice *)

Section Idempotence.
Context (env : Env) (scheme : string) (timeout portOffset : Z).

Lemma readyMembers_reconciled h :
  readyMembers env scheme timeout portOffset
    (reconciledHashring env scheme timeout portOffset h)
  = readyMembers env scheme timeout portOffset h.
Proof.
  unfold reconciledHashring, readyMembers at 1. cbn [Endpoints].
  rewrite elems_appended. unfold readyMembers.
  apply sort_Strings_proper.
  rewrite sort_Strings_Permutation.
  by rewrite list_filter_filter_l.
Qed.

Lemma reconciled_idempotent hashrings :
  reconciled env scheme timeout portOffset
    (reconciled env scheme timeout portOffset hashrings)
  = reconciled env scheme timeout portOffset hashrings.
Proof.
  destruct hashrings as [|l]; [done|]. simpl. f_equal.
  rewrite <- list_fmap_compose. apply list_fmap_ext. intros i h _. simpl.
  unfold reconciledHashring at 1. rewrite readyMembers_reconciled.
  reflexivity.
Qed.

Lemma wellFormed_reconciled hashrings :
  wellFormed hashrings ->
  wellFormed (reconciled env scheme timeout portOffset hashrings).
Proof.
  unfold wellFormed. destruct hashrings as [|l]; [done|]. simpl.
  intros Hwf. apply Forall_fmap. eapply Forall_impl; [exact Hwf|].
  intros h Hh. simpl. rewrite elems_appended. unfold readyMembers.
  apply Forall_forall. intros e He.
  rewrite sort_Strings_Permutation in He.
  apply list_elem_of_filter in He as [_ He].
  by eapply (proj1 (Forall_forall _ _) Hh).
Qed.

End Idempotence.

(** X9. Reconciling a reconciled configuration under the same readiness
    outcomes changes nothing: the loop returns its input, so a derived file
    fed back as a source yields the same definitions. *)
Theorem reconcile_is_idempotent
    (env : Env) (scheme : string) (timeout portOffset : Z)
    (verbose : bool) (probes1 probes2 : nat -> list nat)
    (hashrings : slice HashringConfig) (w : World) :
  wellFormed hashrings ->
  exists once w1 w2,
    reconcile env scheme timeout portOffset verbose probes1 hashrings w
    = Ok once w1
    /\ reconcile env scheme timeout portOffset verbose probes2 once w1
       = Ok once w2.
Proof.
  intros Hwf.
  destruct (reconcile_result env scheme timeout portOffset verbose probes1
              hashrings w Hwf) as (w1 & H1 & _).
  destruct (reconcile_result env scheme timeout portOffset verbose probes2
              (reconciled env scheme timeout portOffset hashrings) w1)
    as (w2 & H2 & _).
  { by apply wellFormed_reconciled. }
  rewrite reconciled_idempotent in H2.
  by eexists _, w1, w2.
Qed.

(** ** What a run writes to *)

Section Writes.
Context (env : Env).

Lemma keepsDisk_writesOnly {A} P (m : Go A) : keepsDisk m -> writesOnly P m.
Proof.
  intros Hk w. destruct (Hk w) as (_ & _ & ->). exists [].
  by rewrite app_nil_r.
Qed.

Lemma writesOnly_bind {A B} P (m : Go A) (k : A -> Go B) :
  writesOnly P m -> (forall a, writesOnly P (k a)) -> writesOnly P (bind m k).
Proof.
  intros Hm Hk w. unfold bind. destruct (Hm w) as (ws1 & H1 & HP1).
  destruct (m w) as [a w1|e w1]; simpl in *; [|by exists ws1].
  destruct (Hk a w1) as (ws2 & H2 & HP2).
  exists (ws1 ++ ws2). rewrite H2, H1, app_assoc. split; [done|].
  by apply Forall_app.
Qed.

Lemma writesOnly_weaken {A} (P Q : string -> Prop) (m : Go A) :
  (forall p, P p -> Q p) -> writesOnly P m -> writesOnly Q m.
Proof.
  intros HPQ Hm w. destruct (Hm w) as (ws & H & HP). exists ws.
  split; [done|]. by eapply Forall_impl.
Qed.

Lemma materialize_writesOnly file ownerName verbose content :
  writesOnly (fun p => p = derivedName file)
    (materialize env file ownerName verbose content).
Proof.
  intros w. unfold materialize, bind. rewrite generatedName_result.
  unfold os_Stat, ioutil_ReadFile, saveHashringFile, bind, ioutil_WriteFile,
    os_Chown, Printf, ret, stored.
  destruct w as [fs0 c l r wr]. cbn [fs clock logs requests writes].
  assert (exists ws : list string,
             wr = wr ++ ws /\ Forall (fun p => p = derivedName file) ws) as Hnone.
  { exists []. by rewrite app_nil_r. }
  assert (exists ws : list string,
             wr ++ [derivedName file] = wr ++ ws
             /\ Forall (fun p => p = derivedName file) ws) as Hone.
  { exists [derivedName file]. split; [done|]. by constructor. }
  destruct (fs0 !! derivedName file) as [existing|] eqn:He; cbn;
    rewrite ?He; cbn.
  - destruct (fs_readable env (derivedName file)); [|done].
    destruct (String.eqb (sha256_Sum256 env (data existing))
                (sha256_Sum256 env content)).
    { by destruct verbose. }
    destruct (user_lookup env ownerName) as [g|]; [|done].
    destruct (fs_write env (derivedName file)); cbn;
      rewrite ?lookup_insert_eq; cbn; try done.
    by destruct (fs_chown_ok env (derivedName file)).
  - destruct (user_lookup env ownerName) as [g|]; [|done].
    destruct (fs_write env (derivedName file)); cbn;
      rewrite ?lookup_insert_eq; cbn; try done.
    by destruct (fs_chown_ok env (derivedName file)).
Qed.

Lemma checkHashringFile_writesOnly file ownerName scheme timeout portOffset
    verbose probes :
  writesOnly (fun p => p = derivedName file)
    (checkHashringFile env file ownerName scheme timeout portOffset verbose
       probes).
Proof.
  unfold checkHashringFile.
  apply writesOnly_bind.
  { apply keepsDisk_writesOnly, keepsDisk_ReadFile. }
  intros [body|]; [|apply keepsDisk_writesOnly, keepsDisk_Printf].
  destruct (json_unmarshal env body) as [hashrings|];
    [|apply keepsDisk_writesOnly, keepsDisk_Printf].
  apply writesOnly_bind.
  { apply keepsDisk_writesOnly, keepsDisk_reconcile. }
  intros hs. apply materialize_writesOnly.
Qed.

Lemma fanOut_writesOnly {B} (body : string -> Go B) (P : string -> Prop)
    (n : nat) :
  forall (pending : list string) choices,
    (forall f, f ∈ pending -> writesOnly P (body f)) ->
    writesOnly P (fanOut body n choices pending).
Proof.
  induction n as [|n IH]; intros pending choices Hbody; cbn [fanOut].
  - intros w. exists []. by rewrite app_nil_r.
  - destruct (pending !! _) as [f|] eqn:Hf.
    2:{ intros w. exists []. by rewrite app_nil_r. }
    assert (f ∈ pending) as Hin by (by eapply list_elem_of_lookup_2).
    apply writesOnly_bind; [by apply Hbody|]. intros b.
    apply writesOnly_bind.
    + apply IH. intros f' Hf'. apply Hbody.
      by eapply list_elem_of_delete_inv.
    + intros bs w. exists []. by rewrite app_nil_r.
Qed.

Lemma run_writesOnly files ownerName scheme timeout portOffset verbose sch :
  writesOnly (fun p => exists f, f ∈ files /\ p = derivedName f)
    (run env files ownerName scheme timeout portOffset verbose sch).
Proof.
  unfold run, goAll.
  apply writesOnly_bind.
  - apply fanOut_writesOnly. intros f Hin.
    eapply writesOnly_weaken; [|apply checkHashringFile_writesOnly].
    intros p ->. by exists f.
  - intros bs w. exists []. by rewrite app_nil_r.
Qed.

End Writes.

(** X10. Every path that a run hands to [ioutil.WriteFile] is the derived
    name of one of the files it was given, and is not the path of any of
    them: whether the list comes from the single file of the command line or
    from directory discovery, and in whatever order the goroutines finish,
    a run never opens for writing a path it reads as a source.  Building the
    list writes nothing.  The statement compares paths as the program
    handles them, as strings: a listed path that reaches a derived file
    through a symbolic link or a [..] is a different string. *)
Theorem run_writes_only_derived_names
    (env : Env) (directory file ownerName scheme : string)
    (timeout portOffset : Z) (verbose : bool) (w : World) :
  exists files w1,
    buildFilesList env directory file verbose w = Ok files w1
    /\ sameDisk w w1
    /\ forall sch, exists ws,
         writes (world_of (run env files ownerName scheme timeout portOffset
                             verbose sch w1))
         = writes w ++ ws
         /\ Forall (fun p => (exists f, f ∈ files /\ p = derivedName f)
                             /\ p ∉ files) ws.
Proof.
  assert (forall files w1 sch,
             sameDisk w w1 ->
             (forall f g, f ∈ files -> g ∈ files -> f <> derivedName g) ->
             exists ws,
               writes (world_of (run env files ownerName scheme timeout
                                   portOffset verbose sch w1))
               = writes w ++ ws
               /\ Forall (fun p => (exists f, f ∈ files /\ p = derivedName f)
                                   /\ p ∉ files) ws) as Hrun.
  { intros files w1 sch (_ & _ & Hw) Hne.
    destruct (run_writesOnly env files ownerName scheme timeout portOffset
                verbose sch w1) as (ws & H & HP).
    exists ws. rewrite H, Hw. split; [done|].
    eapply Forall_impl; [exact HP|]. intros p (g & Hg & ->).
    split; [by exists g|]. intros Hin. by apply (Hne _ g Hin Hg). }
  unfold buildFilesList, bind.
  destruct (negb (String.eqb file EmptyString)) eqn:Hfile.
  - exists [file], (if verbose then add_log (DebugLogger, WatchingFiles [file]) w
                    else w).
    split; [by destruct verbose|].
    assert (sameDisk w (if verbose
                        then add_log (DebugLogger, WatchingFiles [file]) w
                        else w)) as Hsd by (by destruct verbose).
    split; [exact Hsd|].
    intros sch. apply Hrun; [exact Hsd|].
    intros f1 g Hf1 Hg. apply list_elem_of_singleton in Hf1, Hg. subst f1 g.
    intros Heq. by apply (derivedName_fresh file).
  - unfold listHashringFiles.
    destruct (Walk (fs_walk env (fs w) directory) []) as [files err] eqn:HW.
    exists files,
      (if verbose
       then add_log (DebugLogger, WatchingFiles files)
              (if err then add_log (ErrorLogger, WalkError) w else w)
       else if err then add_log (ErrorLogger, WalkError) w else w).
    split; [by destruct err, verbose|].
    assert (sameDisk w
              (if verbose
               then add_log (DebugLogger, WatchingFiles files)
                      (if err then add_log (ErrorLogger, WalkError) w else w)
               else if err then add_log (ErrorLogger, WalkError) w else w))
      as Hsd by (by destruct err, verbose).
    split; [exact Hsd|].
    intros sch. apply Hrun; [exact Hsd|].
    intros f1 g Hf1 _ Heq.
    destruct (Walk_selects (fs_walk env (fs w) directory) [] f1)
      as [Hnil|(info & _ & _ & _ & Hgen)].
    { by rewrite HW. }
    { by apply elem_of_nil in Hnil. }
    rewrite Heq, derivedName_suffix in Hgen. done.
Qed.

(** ** One-shot mode *)

Lemma run_single (env : Env) file ownerName scheme timeout portOffset verbose
    sch w :
  run env [file] ownerName scheme timeout portOffset verbose sch w
  = checkHashringFile env file ownerName scheme timeout portOffset verbose
      (probe_order sch file) w.
Proof.
  unfold run, goAll, bind. cbn [length fanOut].
  rewrite Nat.mod_1_r. cbn [lookup list_lookup]. unfold bind.
  destruct (checkHashringFile _ _ _ _ _ _ _ _ w) as [[] w'|p w']; done.
Qed.

(** X11. In one-shot mode with a single file and a valid configuration,
    [main] is exactly one pass over that file (after the line that lists
    the watched files, when verbose): it returns when the pass returns and
    panics when the pass panics, with the world the pass leaves. *)
Theorem one_shot_file_mode_is_one_pass
    (env : Env) (flags : Flags) (sch : Schedule) (w : World) :
  flag_version flags = false ->
  flag_file flags <> EmptyString ->
  flag_directory flags = EmptyString ->
  flag_endpointTimeout flags < flag_interval flags ->
  flag_schedule flags = false ->
  main env flags sch w
  = match checkHashringFile env (flag_file flags) (flag_owner flags)
            (flag_endpointScheme flags) (flag_endpointTimeout flags)
            (flag_endpointPortOffset flags) (flag_verbose flags)
            (probe_order sch (flag_file flags))
            (if flag_verbose flags
             then add_log (DebugLogger, WatchingFiles [flag_file flags]) w
             else w) with
    | Ok _ w' => Returned w'
    | Panic p w' => Panicked p w'
    end.
Proof.
  intros Hv Hf Hd Hi Hs. unfold main. rewrite Hv, Hd, Hs.
  apply String.eqb_neq in Hf. rewrite Hf. cbn [andb orb negb].
  rewrite (proj2 (Z.leb_gt _ _) Hi).
  unfold buildFilesList. rewrite Hf. cbn [negb].
  unfold bind at 1 2 3. unfold ret at 1.
  destruct (flag_verbose flags); cbn; unfold ret; by rewrite run_single.
Qed.

(** ** The scheduler without a signal *)

Lemma sched_step_unsignalled env flags s e s' :
  unsignalled s -> isSignal e = false ->
  sched_step env flags s e = Some s' -> unsignalled s'.
Proof.
  intros (Hsig & Hh & Hd & Hst) He. unfold sched_step.
  destruct (sched_status s) eqn:Hs; [|done|done].
  destruct e as [|i probes| |sig| |]; try done.
  - destruct (sched_ticking s); [|done].
    destruct (bind _ _ _) as [files w'|p w']; intros [= <-]; by repeat split.
  - destruct (sched_ticking s) as [|todo]; [done|].
    destruct (todo !! i); [|done].
    destruct (checkHashringFile _ _ _ _ _ _ _ _ _) as [[] w'|p w'];
      intros [= <-]; by repeat split.
  - destruct (sched_ticking s) as [|[|? ?]]; try done.
    intros [= <-]; by repeat split.
  - rewrite Hsig. by destruct (sched_ticking s).
  - rewrite Hd. by destruct (sched_ticking s).
Qed.

Lemma sched_exec_unsignalled env flags events :
  forall s s',
    unsignalled s -> forallb (fun e => negb (isSignal e)) events = true ->
    sched_exec env flags s events = Some s' -> unsignalled s'.
Proof.
  induction events as [|e events IH]; intros s s' Hs He; cbn [sched_exec].
  - by intros [= <-].
  - cbn [forallb] in He. apply andb_true_iff in He as [He1 He2].
    apply negb_true_iff in He1.
    destruct (sched_step env flags s e) as [s1|] eqn:Hstep; [|done].
    apply (IH s1); [|done].
    by eapply sched_step_unsignalled.
Qed.

(** X12. In scheduled mode the process ends only through a signal: after
    any sequence of events without a signal, [main] has not returned and the
    signal goroutine is still waiting.  And a signal always ends it: from
    any such state that has not crashed, the signal, the handler and [main]
    can run at once, whatever the ticker goroutine is doing, and leave the
    run as it stands. *)
Theorem scheduler_stops_only_on_signal
    (env : Env) (flags : Flags) (w : World) (events : list Event) (s : Sched) :
  forallb (fun e => negb (isSignal e)) events = true ->
  sched_exec env flags (sched_start flags w) events = Some s ->
  sched_status s <> Exited
  /\ sched_handler_waiting s = true
  /\ (sched_status s = Alive ->
      forall sig,
        exists s',
          sched_exec env flags s [EvSignal sig; EvHandler; EvMainReturns]
          = Some s'
          /\ sched_status s' = Exited
          /\ sched_ticking s' = sched_ticking s
          /\ fs (sched_world s') = fs (sched_world s)).
Proof.
  intros He Hexec.
  destruct (sched_exec_unsignalled env flags events (sched_start flags w) s)
    as (Hsig & Hh & Hd & Hst); [by repeat split | done | done |].
  split; [done|]. split; [done|].
  intros Halive sig. unfold sched_exec, sched_step.
  rewrite Halive, Hsig. cbn.
  destruct (sched_ticking s); cbn; rewrite Hh; cbn; eexists; by repeat split.
Qed.

(** X13. In scheduled mode a watched file with an address without a
    separator ends the whole process at the tick that reaches it: the step
    of that file's goroutine leaves the process crashed, the disk as it was,
    and no further step exists, so the other files of the run and all later
    ticks are lost. *)
Theorem malformed_address_stops_the_scheduler
    (env : Env) (flags : Flags) (s : Sched) (todo : list string) (i : nat)
    (probes : nat -> list nat) (file : string) (src : File)
    (hashrings : slice HashringConfig) :
  sched_status s = Alive ->
  sched_ticking s = InRun todo ->
  todo !! i = Some file ->
  fs (sched_world s) !! file = Some src ->
  fs_readable env file = true ->
  json_unmarshal env (data src) = Some hashrings ->
  ~ wellFormed hashrings ->
  exists s',
    sched_step env flags s (EvFileDone i probes) = Some s'
    /\ sched_status s' = Crashed (IndexOutOfRange 1 1)
    /\ fs (sched_world s') = fs (sched_world s)
    /\ writes (sched_world s') = writes (sched_world s)
    /\ forall e, sched_step env flags s' e = None.
Proof.
  intros Ha Ht Hi Hs Hr Hd Hbad. unfold sched_step at 1.
  rewrite Ha, Ht, Hi.
  destruct (checkHashringFile_panics env file (flag_owner flags)
              (flag_endpointScheme flags) (flag_endpointTimeout flags)
              (flag_endpointPortOffset flags) (flag_verbose flags) probes
              (sched_world s) src hashrings Hs Hr Hd Hbad)
    as (w' & -> & Hfs & _ & Hwr).
  eexists. split; [reflexivity|]. by repeat split.
Qed.

(** ** Derived names of plain sources *)

Lemma app_inv_tail_string (s1 s2 t : string) : s1 +:+ t = s2 +:+ t -> s1 = s2.
Proof.
  intros H.
  assert (String.length s1 = String.length s2) as Hlen.
  { apply (f_equal String.length) in H.
    rewrite !strings_facts.length_app in H. lia. }
  rewrite <- (strings_facts.take_app_length s1 t).
  rewrite <- (strings_facts.take_app_length s2 t).
  by rewrite H, Hlen.
Qed.

Lemma string_app_empty_r (s : string) : s +:+ EmptyString = s.
Proof.
  induction s as [|c s IH]; [done|].
  by rewrite strings_facts.app_cons, IH.
Qed.

Lemma plainSource_stem (file : string) :
  plainSource file -> file = stem file +:+ ".json".
Proof.
  unfold plainSource, stem. intros Hi. rewrite Hi.
  apply strings_facts.Index_Some in Hi as (Hp & Hm & _).
  apply strings_facts.HasPrefix_true in Hp as [r Hr].
  assert (r = EmptyString) as ->.
  { apply (f_equal String.length) in Hr.
    rewrite strings_facts.length_drop, strings_facts.length_app in Hr.
    simpl in Hr. destruct r; [done|]. simpl in Hr. lia. }
  rewrite string_app_empty_r in Hr.
  rewrite <- Hr. by rewrite strings_facts.take_drop.
Qed.

(** X14. Two different source paths whose only [.json] is their extension
    have different derived files: such sources never overwrite each other's
    output. *)
Theorem plain_sources_have_distinct_derived_files (file1 file2 : string) :
  plainSource file1 -> plainSource file2 -> file1 <> file2 ->
  derivedName file1 <> derivedName file2.
Proof.
  intros H1 H2 Hne Heq. apply Hne. unfold derivedName in Heq.
  apply app_inv_tail_string in Heq.
  rewrite (plainSource_stem file1 H1), (plainSource_stem file2 H2).
  by rewrite Heq.
Qed.

(** ** The further properties at work *)

(** The second definition lists [localhost]: the pass panics. *)
Lemma malformed_address_crashes_pass_witness :
  (fs demo.world !! demo.path = Some (mkFile demo.source 0 (0, 0))
   /\ ~ wellFormed (mk_slice [demo.hashring;
                              mkHashringConfig "cold" nil_slice
                                (mk_slice ["a:10901"; "localhost"])]))
  /\ exists w',
       checkHashringFile fixtures.malformed demo.path "thanos" "http" 5 1 false
         (fun _ => []) demo.world
       = Panic (IndexOutOfRange 1 1) w'
       /\ fs w' = fs demo.world.
Proof.
  assert (~ wellFormed (mk_slice [demo.hashring;
                                  mkHashringConfig "cold" nil_slice
                                    (mk_slice ["a:10901"; "localhost"])]))
    as Hbad.
  { intros H. apply Forall_cons in H as [_ H]. apply Forall_cons in H as [H _].
    apply Forall_cons in H as [_ H]. apply Forall_cons in H as [H _].
    discriminate H. }
  split; [by split|].
  destruct (malformed_address_crashes_pass fixtures.malformed demo.path
              "thanos" "http" 5 1 false (fun _ => []) demo.world
              (mkFile demo.source 0 (0, 0)) _ eq_refl eq_refl eq_refl Hbad)
    as (w' & H & Hfs & _).
  by exists w'.
Defined.

(** A source that is not on disk. *)
Lemma unusable_source_is_only_logged_witness :
  fs demo.world !! "/etc/thanos/absent.json" = None
  /\ exists m,
       checkHashringFile fixtures.healthy "/etc/thanos/absent.json" "thanos"
         "http" 5 1 false (fun _ => []) demo.world
       = Ok tt (add_log (ErrorLogger, m) demo.world)
       /\ (m = UnableToReadFile "/etc/thanos/absent.json"
           \/ m = UnableToDecodeFile "/etc/thanos/absent.json").
Proof.
  split; [reflexivity|].
  exact (unusable_source_is_only_logged fixtures.healthy
           "/etc/thanos/absent.json" "thanos" "http" 5 1 false (fun _ => [])
           demo.world (or_introl eq_refl)).
Defined.

(** The outdated derived file is replaced and handed to 1000:1000. *)
Lemma stale_derived_file_is_overwritten_witness :
  (fs fixtures.stale_world !! fixtures.derived = Some (mkFile "[]" 0 (7, 7))
   /\ wellFormed (mk_slice [demo.hashring]))
  /\ exists w',
       checkHashringFile fixtures.healthy demo.path "thanos" "http" 5 1 false
         (fun _ => []) fixtures.stale_world = Ok tt w'
       /\ writes w' = [fixtures.derived]
       /\ (data <$> fs w' !! fixtures.derived)
          = Some ("[{" +:+ json.key "endpoints" +:+ "[" +:+ demo.quote "a:10901"
                  +:+ "," +:+ demo.quote "b:10901" +:+ ","
                  +:+ demo.quote "c:10901" +:+ "]}]")
       /\ (owner <$> fs w' !! fixtures.derived) = Some (1000, 1000).
Proof.
  assert (wellFormed (mk_slice [demo.hashring])) as Hwf by repeat constructor.
  split; [by split|].
  destruct (stale_derived_file_is_overwritten fixtures.healthy demo.path
              "thanos" "http" 5 1 false (fun _ => []) fixtures.stale_world
              (mkFile demo.source 0 (0, 0)) (mkFile "[]" 0 (7, 7))
              (mk_slice [demo.hashring]) (mkUser "1000" "1000")
              eq_refl eq_refl eq_refl Hwf eq_refl eq_refl)
    as (w' & H & Hwr & Hf & _).
  { discriminate. }
  { reflexivity. }
  { reflexivity. }
  exists w'. split; [exact H|]. split; [exact Hwr|].
  change fixtures.derived with (derivedName demo.path).
  rewrite Hf. split; reflexivity.
Defined.

(** The derived file exists and cannot be read: nothing is written. *)
Lemma unreadable_derived_file_blocks_update_witness :
  (fs fixtures.stale_world !! fixtures.derived = Some (mkFile "[]" 0 (7, 7))
   /\ fs_readable fixtures.locked fixtures.derived = false)
  /\ exists w',
       checkHashringFile fixtures.locked demo.path "thanos" "http" 5 1 false
         (fun _ => []) fixtures.stale_world = Ok tt w'
       /\ fs w' = fs fixtures.stale_world
       /\ writes w' = [].
Proof.
  assert (wellFormed (mk_slice [demo.hashring])) as Hwf by repeat constructor.
  split; [by split|].
  destruct (unreadable_derived_file_blocks_update fixtures.locked demo.path
              "thanos" "http" 5 1 false (fun _ => []) fixtures.stale_world
              (mkFile demo.source 0 (0, 0)) (mkFile "[]" 0 (7, 7))
              (mk_slice [demo.hashring])
              eq_refl eq_refl eq_refl Hwf eq_refl eq_refl)
    as (w' & H & Hfs & _ & Hwr & _).
  by exists w'.
Defined.

(** [Chown] fails: the file stays with the process, and stays so. *)
Lemma failed_chown_is_not_retried_witness :
  (fs demo.world !! derivedName demo.path = None
   /\ fs_chown_ok fixtures.no_chown (derivedName demo.path) = false)
  /\ exists w1 w2,
       checkHashringFile fixtures.no_chown demo.path "thanos" "http" 5 1 false
         (fun _ => []) demo.world = Ok tt w1
       /\ (owner <$> fs w1 !! fixtures.derived) = Some (0, 0)
       /\ checkHashringFile fixtures.no_chown demo.path "thanos" "http" 5 1
            false (fun _ => [1]%nat) w1 = Ok tt w2
       /\ fs w2 = fs w1 /\ writes w2 = writes w1.
Proof.
  assert (wellFormed (mk_slice [demo.hashring])) as Hwf by repeat constructor.
  split; [by split|].
  destruct (failed_chown_is_not_retried fixtures.no_chown demo.path "thanos"
              "http" 5 1 false (fun _ => []) (fun _ => [1]%nat) demo.world
              (mkFile demo.source 0 (0, 0)) (mk_slice [demo.hashring])
              (mkUser "1000" "1000")
              eq_refl eq_refl eq_refl Hwf eq_refl eq_refl eq_refl eq_refl)
    as (w1 & w2 & f & H1 & Hf & Ho & _ & H2 & Hfs & Hwr).
  exists w1, w2. split; [exact H1|]. split.
  { change fixtures.derived with (derivedName demo.path). rewrite Hf. cbn. rewrite Ho. reflexivity. }
  by repeat split.
Defined.

(** Three members, three calls, in some order. *)
Lemma pass_calls_Do_once_per_member_witness :
  wellFormed (mk_slice [demo.hashring])
  /\ exists w',
       checkHashringFile demo.b_down demo.path "thanos" "http" 5 1 false
         (fun _ => [1; 1]%nat) demo.world = Ok tt w'
       /\ requests w'
          ≡ₚ ["http://c:10902/-/ready"; "http://b:10902/-/ready";
              "http://a:10902/-/ready"].
Proof.
  assert (wellFormed (mk_slice [demo.hashring])) as Hwf by repeat constructor.
  split; [exact Hwf|].
  destruct (pass_calls_Do_once_per_member demo.b_down demo.path "thanos" "http"
              5 1 false (fun _ => [1; 1]%nat) demo.world
              (mkFile demo.source 0 (0, 0)) (mk_slice [demo.hashring])
              eq_refl eq_refl eq_refl Hwf)
    as (w' & sent & H & Hr & Hp).
  exists w'. split; [exact H|]. rewrite Hr. exact Hp.
Defined.

(** Reconciling the two definitions of [demo] twice. *)
Lemma reconcile_is_idempotent_witness :
  wellFormed demo.two
  /\ exists once w1 w2,
       reconcile demo.b_down "http" 5 1 false (fun _ => []) demo.two demo.world
       = Ok once w1
       /\ reconcile demo.b_down "http" 5 1 false (fun _ => [1]%nat) once w1
          = Ok once w2.
Proof.
  assert (wellFormed demo.two) as Hwf by repeat constructor.
  split; [exact Hwf|].
  exact (reconcile_is_idempotent demo.b_down "http" 5 1 false (fun _ => [])
           (fun _ => [1]%nat) demo.two demo.world Hwf).
Defined.

(** [--file /etc/thanos/hashring.json]: [main] is the pass over that file. *)
Lemma one_shot_file_mode_is_one_pass_witness :
  (flag_file (fixtures.file_flags false) <> EmptyString
   /\ flag_endpointTimeout (fixtures.file_flags false)
      < flag_interval (fixtures.file_flags false))
  /\ main fixtures.healthy (fixtures.file_flags false) demo.oneShot demo.world
     = match checkHashringFile fixtures.healthy demo.path "thanos" "http" 5 1
               false (fun _ => []) demo.world with
       | Ok _ w' => Returned w'
       | Panic p w' => Panicked p w'
       end.
Proof.
  assert (flag_file (fixtures.file_flags false) <> EmptyString) as Hf
    by discriminate.
  assert (flag_endpointTimeout (fixtures.file_flags false)
          < flag_interval (fixtures.file_flags false)) as Hi by reflexivity.
  split; [by split|].
  exact (one_shot_file_mode_is_one_pass fixtures.healthy
           (fixtures.file_flags false) demo.oneShot demo.world
           eq_refl Hf eq_refl Hi eq_refl).
Defined.

(** A tick and a complete run without a signal: still alive. *)
Lemma scheduler_stops_only_on_signal_witness :
  (exists s,
      sched_exec fixtures.healthy (fixtures.file_flags true)
        (sched_start (fixtures.file_flags true) demo.world)
        [EvTick; EvFileDone 0 (fun _ => []); EvRunDone] = Some s
      /\ sched_status s <> Exited /\ sched_handler_waiting s = true).
Proof.
  destruct (sched_exec fixtures.healthy (fixtures.file_flags true)
              (sched_start (fixtures.file_flags true) demo.world)
              [EvTick; EvFileDone 0 (fun _ => []); EvRunDone])
    as [s|] eqn:E.
  2:{ exfalso. vm_compute in E. discriminate E. }
  exists s. split; [reflexivity|].
  destruct (scheduler_stops_only_on_signal fixtures.healthy
              (fixtures.file_flags true) demo.world
              [EvTick; EvFileDone 0 (fun _ => []); EvRunDone] s
              eq_refl E) as (H1 & H2 & _).
  by split.
Defined.

(** The two watched files of [demo.two_files]. *)
Lemma plain_sources_have_distinct_derived_files_witness :
  (plainSource demo.path /\ plainSource demo.other /\ demo.path <> demo.other)
  /\ derivedName demo.path <> derivedName demo.other.
Proof.
  assert (plainSource demo.path) as H1 by reflexivity.
  assert (plainSource demo.other) as H2 by reflexivity.
  assert (demo.path <> demo.other) as Hne by discriminate.
  split; [by split_and!|].
  exact (plain_sources_have_distinct_derived_files demo.path demo.other
           H1 H2 Hne).
Defined.

(** Without that condition two sources can share a derived file: both
    names below pass the filter of line 201. *)
Example nested_extension_shares_the_derived_file :
  derivedName "/etc/thanos/ring.json.d/extra.json"
  = derivedName "/etc/thanos/ring.json"
  /\ selected (VisitOk "/etc/thanos/ring.json.d/extra.json" ModeRegular)
     = Some "/etc/thanos/ring.json.d/extra.json"
  /\ selected (VisitOk "/etc/thanos/ring.json" ModeRegular)
     = Some "/etc/thanos/ring.json".
Proof. split_and!; reflexivity. Qed.

(** The goroutine of the malformed file finishes: the process is gone. *)
Lemma malformed_address_stops_the_scheduler_witness :
  (sched_status fixtures.mid_run = Alive
   /\ sched_ticking fixtures.mid_run = InRun [demo.path])
  /\ exists s',
       sched_step fixtures.malformed (fixtures.file_flags true) fixtures.mid_run
         (EvFileDone 0 (fun _ => [])) = Some s'
       /\ sched_status s' = Crashed (IndexOutOfRange 1 1)
       /\ forall e,
            sched_step fixtures.malformed (fixtures.file_flags true) s' e = None.
Proof.
  split; [by split|].
  assert (~ wellFormed (mk_slice [demo.hashring;
                                  mkHashringConfig "cold" nil_slice
                                    (mk_slice ["a:10901"; "localhost"])]))
    as Hbad.
  { intros H. apply Forall_cons in H as [_ H]. apply Forall_cons in H as [H _].
    apply Forall_cons in H as [_ H]. apply Forall_cons in H as [H _].
    discriminate H. }
  destruct (malformed_address_stops_the_scheduler fixtures.malformed
              (fixtures.file_flags true) fixtures.mid_run [demo.path] 0
              (fun _ => []) demo.path (mkFile demo.source 0 (0, 0)) _
              eq_refl eq_refl eq_refl eq_refl eq_refl eq_refl Hbad)
    as (s' & H & Hst & _ & _ & Hstuck).
  by exists s'.
Defined.
